(** * Chord selector engine: pitch mapping, catalog parsing, voicings, search

    A shallow embedding of the chord database module of the chord selector
    application (the order-preserving implementation, and the sort-based
    one in [src/data/chordDatabase.ts]), with the properties of its
    specification stated and proved over the embedding.

    Conventions of the embedding.
    - A JavaScript string is a list of code units below 256,
      [str := list ascii]: there the white space removed by [trim] is the
      code units 9-13, 32 and 160, and [toLowerCase] maps [A-Z] and the
      accented capitals 192-222 (215 apart) 32 places up.
    - A JavaScript number holding a pitch is an integer of [Z]. Numbers
      are binary floating point, exact on integers far beyond every pitch
      a keyboard has; properties of the pitch arithmetic are stated for
      pitches in the range 0..127 of the data model.
    - Reading [noteMap[key]] follows the prototype chain: a key that names
      a member every object inherits ([constructor], [toString], ...) is
      found and is not a number. [getProperty] models the read; the pitch
      functions then stand for the source only on labels that name no
      inherited member ([numberLabels]), and properties of pitches are
      stated for such labels.
    - [console.warn] output is a list of messages returned next to the
      value; the module-level cache [chordDatabase] is an explicit state. *)

From Stdlib Require Import String Ascii.
From Stdlib Require Import List ZArith Lia Bool.
From Stdlib Require Import Permutation Sorted.
Import ListNotations.
Open Scope Z_scope.

(* ------------------------------------------------------------------ *)
(** ** Strings *)

Definition str := list ascii.

Definition lit (s : string) : str := list_ascii_of_string s.

(** The double quote, which cannot be written inside a literal. *)
Definition dquote : ascii := ascii_of_nat 34.
Definition comma : ascii := ascii_of_nat 44.
Definition newline : ascii := ascii_of_nat 10.

Fixpoint str_eqb (a b : str) : bool :=
  match a, b with
  | [], [] => true
  | x :: a', y :: b' => Ascii.eqb x y && str_eqb a' b'
  | _, _ => false
  end.

(** White space and line terminators removed by [String.prototype.trim]. *)
Definition isSpace (c : ascii) : bool :=
  match N_of_ascii c with
  | 9%N | 10%N | 11%N | 12%N | 13%N | 32%N | 160%N => true
  | _ => false
  end.

(** Line terminators, which the regular expression [.] does not match. *)
Definition isLineTerminator (c : ascii) : bool :=
  match N_of_ascii c with
  | 10%N | 13%N => true
  | _ => false
  end.

Fixpoint dropWhile {A} (p : A -> bool) (l : list A) : list A :=
  match l with
  | [] => []
  | x :: t => if p x then dropWhile p t else l
  end.

Definition trimStart (s : str) : str := dropWhile isSpace s.
Definition trimEnd (s : str) : str := rev (dropWhile isSpace (rev s)).
Definition trim (s : str) : str := trimEnd (trimStart s).

Definition lowerChar (c : ascii) : ascii :=
  let n := N_of_ascii c in
  if ((65 <=? n) && (n <=? 90))%N then ascii_of_N (n + 32)
  else if ((192 <=? n) && (n <=? 222) && negb (n =? 215))%N
       then ascii_of_N (n + 32)
       else c.

Definition toLowerCase (s : str) : str := map lowerChar s.

Fixpoint startsWith (s q : str) : bool :=
  match q, s with
  | [], _ => true
  | c :: q', d :: s' => Ascii.eqb c d && startsWith s' q'
  | _ :: _, [] => false
  end.

Fixpoint includes (s q : str) : bool :=
  startsWith s q ||
  match s with
  | [] => false
  | _ :: s' => includes s' q
  end.

(** [s.split(sep)] for a one-character separator: never empty, the pieces
    between consecutive separators in order. *)
Fixpoint split (sep : ascii) (s : str) : list str :=
  match s with
  | [] => [[]]
  | c :: s' =>
      if Ascii.eqb c sep then [] :: split sep s'
      else match split sep s' with
           | piece :: rest => (c :: piece) :: rest
           | [] => [[c]]
           end
  end.

(* ------------------------------------------------------------------ *)
(** ** Data model *)

Record ChordData := mkChord {
  name : str;
  notes : list str;
  midiNotes : list Z;
  type : str;
  extension : str
}.

Record ChordVoicing := mkVoicing {
  vname : str;
  vnotes : list Z
}.

(* ------------------------------------------------------------------ *)
(** ** Pitch mapper: [noteToMidi] *)

(** The object literal [noteMap], in source order. *)
Definition noteMap : list (str * Z) :=
  [ (lit "C", 0); (lit "C#", 1); (lit "Db", 1);
    (lit "D", 2); (lit "D#", 3); (lit "Eb", 3);
    (lit "E", 4);
    (lit "F", 5); (lit "F#", 6); (lit "Gb", 6);
    (lit "G", 7); (lit "G#", 8); (lit "Ab", 8);
    (lit "A", 9); (lit "A#", 10); (lit "Bb", 10);
    (lit "B", 11) ].

(** The own properties of the object literal: the first step of a
    property read. *)
Fixpoint lookup (key : str) (m : list (str * Z)) : option Z :=
  match m with
  | [] => None
  | (k, v) :: m' => if str_eqb key k then Some v else lookup key m'
  end.

(** The members every object inherits from [Object.prototype]. *)
Definition objectPrototypeMembers : list str :=
  map lit
    [ "constructor"; "__defineGetter__"; "__defineSetter__";
      "hasOwnProperty"; "__lookupGetter__"; "__lookupSetter__";
      "isPrototypeOf"; "propertyIsEnumerable"; "toString"; "valueOf";
      "__proto__"; "toLocaleString" ]%string.

Definition inheritedMember (key : str) : bool :=
  existsb (str_eqb key) objectPrototypeMembers.

(** What [noteMap[key]] yields: the value of an own key, an inherited
    member (a function or an object, never [undefined]), or
    [undefined]. *)
Inductive Property :=
| Own (v : Z)
| Inherited (member : str)
| Undefined.

Definition getProperty (key : str) (m : list (str * Z)) : Property :=
  match lookup key m with
  | Some v => Own v
  | None => if inheritedMember key then Inherited key else Undefined
  end.

(** Whether [noteToMidi] returns a number: for an inherited member
    [baseNote + 60] is the member's text followed by 60, a string. *)
Definition noteToMidi_isNumber (noteName : str) : bool :=
  match getProperty (trim noteName) noteMap with
  | Inherited _ => false
  | _ => true
  end.

(** The number returned by [noteToMidi]. Where [noteToMidi_isNumber] is
    false the source returns no number and the 60 given here stands for
    nothing: the properties of pitches below exclude such labels. *)
Definition noteToMidi (noteName : str) : Z :=
  let cleanNote := trim noteName in
  match getProperty cleanNote noteMap with
  | Undefined => 60
  | Own baseNote => baseNote + 60
  | Inherited _ => 60
  end.

(** The diagnostic of [noteToMidi]: one warning when the read yields
    [undefined], none otherwise (none for an inherited member either). *)
Definition noteToMidi_warn (noteName : str) : list str :=
  let cleanNote := trim noteName in
  match getProperty cleanNote noteMap with
  | Undefined => [lit "Unknown note: " ++ cleanNote]
  | _ => []
  end.

(* ------------------------------------------------------------------ *)
(** ** Octave raising: the loop [while (note <= prev) note += 12] *)

Fixpoint octaveLoop (fuel : nat) (prev note : Z) : Z :=
  match fuel with
  | O => note
  | S fuel' =>
      if note <=? prev then octaveLoop fuel' prev (note + 12) else note
  end.

(** The loop runs [(prev - note) / 12 + 1] times when [note <= prev] and
    not at all otherwise; [raiseAbove_unfold] below shows that this fuel
    is enough, by proving the equation of the [while] loop. *)
Definition raiseAbove (prev note : Z) : Z :=
  octaveLoop (Z.to_nat ((prev - note) / 12 + 1)) prev note.

(** The body of both ascending loops: every element after the first is
    raised above the last element pushed so far. *)
Fixpoint ascend (prev : Z) (rest : list Z) : list Z :=
  match rest with
  | [] => []
  | x :: rest' =>
      let y := raiseAbove prev x in
      y :: ascend y rest'
  end.

Definition convertChordNotesToMidi (notes : list str) : list Z :=
  match notes with
  | [] => []
  | first :: others =>
      let rootMidi := noteToMidi first in
      rootMidi :: ascend rootMidi (map noteToMidi others)
  end.

(* ------------------------------------------------------------------ *)
(** ** Catalog parser: [parseChordData] *)

(** The longest prefix whose characters satisfy [p], and what follows. *)
Fixpoint span {A} (p : A -> bool) (l : list A) : list A * list A :=
  match l with
  | [] => ([], [])
  | x :: t =>
      if p x then let (a, b) := span p t in (x :: a, b) else ([], l)
  end.

Definition notComma (c : ascii) : bool := negb (Ascii.eqb c comma).
Definition notQuote (c : ascii) : bool := negb (Ascii.eqb c dquote).
Definition anyChar (c : ascii) : bool := negb (isLineTerminator c).

(** The regular expression of [line.match]: anchored at both ends, group 1
    one or more non-commas, a comma, a double quote, group 2 one or more
    non-quotes, a double quote, a comma, group 3 one or more non-commas, a
    comma, group 4 one or more characters other than line terminators.
    Each of the first three groups is followed by a character its class
    excludes, so the greedy match takes the longest run and no shorter one
    can succeed; [matchLine_iff] relates this matcher to the language of
    the expression. *)
Definition matchLine (line : str) : option (str * str * str * str) :=
  let (g1, r1) := span notComma line in
  match g1, r1 with
  | _ :: _, _ :: q :: r2 =>
      if Ascii.eqb q dquote then
        let (g2, r3) := span notQuote r2 in
        match g2, r3 with
        | _ :: _, _ :: c :: r4 =>
            if Ascii.eqb c comma then
              let (g3, r5) := span notComma r4 in
              match g3, r5 with
              | _ :: _, _ :: (_ :: _) as g4 =>
                  if forallb anyChar g4 then Some (g1, g2, g3, g4) else None
              | _, _ => None
              end
            else None
        | _, _ => None
        end
      else None
  | _, _ => None
  end.

(** One iteration of the loop over the lines: the entries pushed (none or
    one) and the warnings written. *)
Definition parseLine (raw : str) : list ChordData * list str :=
  let line := trim raw in
  match line with
  | [] => ([], [])
  | _ :: _ =>
      match matchLine line with
      | None => ([], [lit "Could not parse line: " ++ line])
      | Some (name, notesStr, type, extension) =>
          let notes := map trim (split comma notesStr) in
          let midiNotes := convertChordNotesToMidi notes in
          ([mkChord (trim name) notes midiNotes (trim type) (trim extension)],
           flat_map noteToMidi_warn notes)
      end
  end.

Fixpoint parseLines (lines : list str) : list ChordData * list str :=
  match lines with
  | [] => ([], [])
  | raw :: rest =>
      let (c1, w1) := parseLine raw in
      let (c2, w2) := parseLines rest in
      (c1 ++ c2, w1 ++ w2)
  end.

(** The text is trimmed and split at newlines; the loop starts at index 1,
    which skips the header row. *)
Definition parseCsv (csvText : str) : list ChordData * list str :=
  parseLines (tl (split newline (trim csvText))).

(** The source is the text of [chords.csv], or [None] when reading it
    throws: the [catch] logs and returns the empty array. *)
Definition parseChordData (source : option str)
  : list ChordData * list str :=
  match source with
  | None => ([], [lit "Failed to load chord data:"])
  | Some csvText => parseCsv csvText
  end.

(* ------------------------------------------------------------------ *)
(** ** Catalog cache: [loadChordDatabase] *)

(** The module variable [chordDatabase]: [None] is [null]. An array is
    truthy even when empty, so an empty catalog is cached as well. *)
Definition Cache := option (list ChordData).

Definition loadChordDatabase (source : option str) (cache : Cache)
  : list ChordData * Cache :=
  match cache with
  | Some db => (db, cache)
  | None =>
      let db := fst (parseChordData source) in
      (db, Some db)
  end.

(* ------------------------------------------------------------------ *)
(** ** Array helpers *)

(** [a[i] += 12]. The index is in range at every use; out of range the
    source would store a non-number, which no pitch list of the model
    holds, and the list is left as it is. *)
Definition addOctave (i : nat) (a : list Z) : list Z :=
  match nth_error a i with
  | Some v => firstn i a ++ (v + 12) :: skipn (S i) a
  | None => a
  end.

(** [Array.prototype.sort] with a comparator. The sort is stable, so for
    a consistent comparator its result is the one of a stable insertion
    sort: an element goes before the first later element that does not
    compare below it. *)
Fixpoint insertBy {A} (cmp : A -> A -> Z) (x : A) (l : list A) : list A :=
  match l with
  | [] => [x]
  | y :: t => if cmp x y <=? 0 then x :: l else y :: insertBy cmp x t
  end.

Definition sortBy {A} (cmp : A -> A -> Z) (l : list A) : list A :=
  fold_right (insertBy cmp) [] l.

(** [Math.max(...a)] of a non-empty array. The empty case does not occur;
    there the source yields minus infinity and the test against the
    keyboard maximum fails, as it does for 0. *)
Definition maxOf (a : list Z) : Z :=
  match a with
  | [] => 0
  | x :: t => fold_left Z.max t x
  end.

(* ------------------------------------------------------------------ *)
(** ** Voicing generator (order-preserving): [calculateVoicings] *)

Definition KEYBOARD_MIN : Z := 60.
Definition KEYBOARD_MAX : Z := 83.

(** The loop [for (i = 0; i < inv; i++) invNotes[i] += 12]. *)
Definition raiseFirst (inv : nat) (rootNotes : list Z) : list Z :=
  fold_left (fun invNotes i => addOctave i invNotes) (seq 0 inv) rootNotes.

(** [invNotes.slice(inv).concat(invNotes.slice(0, inv))]. *)
Definition rotate (inv : nat) (invNotes : list Z) : list Z :=
  skipn inv invNotes ++ firstn inv invNotes.

(** [sortedInversion]: the first rotated note, then each following note
    raised above the last one pushed. *)
Definition normalize (rotatedNotes : list Z) : list Z :=
  match rotatedNotes with
  | [] => []
  | x :: t => x :: ascend x t
  end.

Definition inversionName (inv : nat) : str :=
  match inv with
  | 1%nat => lit "1st Inv"
  | 2%nat => lit "2nd Inv"
  | _ => lit "3rd Inv"
  end.

(** The normalized sequence of inversion [inv], before the range test. *)
Definition sortedInversion (rootNotes : list Z) (inv : nat) : list Z :=
  normalize (rotate inv (raiseFirst inv rootNotes)).

(** The body of the loop over [inv]. *)
Definition inversion (rootNotes : list Z) (inv : nat) : ChordVoicing :=
  let sorted := sortedInversion rootNotes inv in
  let highestNote := maxOf sorted in
  if highestNote >? KEYBOARD_MAX then
    let adjustedNotes := map (fun note => note - 12) sorted in
    mkVoicing (inversionName inv) adjustedNotes
  else
    mkVoicing (inversionName inv) sorted.

Definition calculateVoicings (chord : ChordData) : list ChordVoicing :=
  match midiNotes chord with
  | [] => []
  | _ :: _ =>
      let rootNotes := midiNotes chord in
      let numInversions := Nat.min (length rootNotes) 4 in
      mkVoicing (lit "Root") rootNotes
        :: map (inversion rootNotes) (seq 1 (numInversions - 1))
  end.

(* ------------------------------------------------------------------ *)
(** ** Voicing generator (sort-based), [src/data/chordDatabase.ts] *)

Module SortBased.

Definition numeric (a b : Z) : Z := a - b.

Definition calculateVoicings (chord : ChordData) : list ChordVoicing :=
  match midiNotes chord with
  | [] => []
  | _ :: _ =>
      let sortedNotes := sortBy numeric (midiNotes chord) in
      [mkVoicing (lit "Root") sortedNotes]
      ++ (if (1 <? length sortedNotes)%nat then
            let firstInv := sortBy numeric (addOctave 0 sortedNotes) in
            [mkVoicing (lit "1st Inv") firstInv]
          else [])
      ++ (if (2 <? length sortedNotes)%nat then
            let secondInv :=
              sortBy numeric (addOctave 1 (addOctave 0 sortedNotes)) in
            [mkVoicing (lit "2nd Inv") secondInv]
          else [])
  end.

(** The parser of this file maps every label on its own: no note is
    raised above the one before it. *)
Definition parseLine (raw : str) : list ChordData * list str :=
  let line := trim raw in
  match line with
  | [] => ([], [])
  | _ :: _ =>
      match matchLine line with
      | None => ([], [lit "Could not parse line: " ++ line])
      | Some (name, notesStr, type, extension) =>
          let notes := map trim (split comma notesStr) in
          let midiNotes := map noteToMidi notes in
          ([mkChord (trim name) notes midiNotes (trim type) (trim extension)],
           flat_map noteToMidi_warn notes)
      end
  end.

Fixpoint parseLines (lines : list str) : list ChordData * list str :=
  match lines with
  | [] => ([], [])
  | raw :: rest =>
      let (c1, w1) := parseLine raw in
      let (c2, w2) := parseLines rest in
      (c1 ++ c2, w1 ++ w2)
  end.

Definition parseCsv (csvText : str) : list ChordData * list str :=
  parseLines (tl (split newline (trim csvText))).

Definition parseChordData (source : option str)
  : list ChordData * list str :=
  match source with
  | None => ([], [lit "Failed to load chord data:"])
  | Some csvText => parseCsv csvText
  end.

End SortBased.

(* ------------------------------------------------------------------ *)
(** ** Search ranker: [searchChords] *)

Section Search.

(** [String.prototype.localeCompare] is the host's collation; the ranker
    is parametric in it. *)
Variable localeCompare : str -> str -> Z.

Definition isSimple (c : ChordData) : bool :=
  str_eqb (type c) (lit "Major") && str_eqb (extension c) (lit "Triad").

Definition compareChords (lowerQuery : str) (a b : ChordData) : Z :=
  let aName := toLowerCase (name a) in
  let bName := toLowerCase (name b) in
  if str_eqb aName lowerQuery && negb (str_eqb bName lowerQuery) then -1
  else if str_eqb bName lowerQuery && negb (str_eqb aName lowerQuery) then 1
  else
    let aStartsWith := startsWith aName lowerQuery in
    let bStartsWith := startsWith bName lowerQuery in
    if aStartsWith && negb bStartsWith then -1
    else if bStartsWith && negb aStartsWith then 1
    else
      let aIsSimple := isSimple a in
      let bIsSimple := isSimple b in
      if aIsSimple && negb bIsSimple then -1
      else if bIsSimple && negb aIsSimple then 1
      else if negb (length aName =? length bName)%nat then
        Z.of_nat (length aName) - Z.of_nat (length bName)
      else localeCompare aName bName.

(** The entries kept by the filter, on the query as given (lowercased). *)
Definition matchesQuery (lowerQuery : str) (chord : ChordData) : bool :=
  includes (toLowerCase (name chord)) lowerQuery.

Definition searchChords (source : option str) (query : str) (cache : Cache)
  : list ChordData * Cache :=
  match trim query with
  | [] => ([], cache)
  | _ :: _ =>
      let (chords, cache') := loadChordDatabase source cache in
      let lowerQuery := toLowerCase query in
      let results := filter (matchesQuery lowerQuery) chords in
      let sortedResults := sortBy (compareChords lowerQuery) results in
      (firstn 20 sortedResults, cache')
  end.

End Search.

(* ------------------------------------------------------------------ *)
(** ** Keyboard diagram: the keys drawn and the keys highlighted *)

Module KeyboardDiagram.

Definition startNote : Z := 60.
Definition numOctaves : nat := 2.
Definition totalKeys : nat := numOctaves * 12.

Definition whiteKeyPattern : list Z := [0; 2; 4; 5; 7; 9; 11].
Definition blackKeyPattern : list Z := [1; 3; 6; 8; 10].

(** [a.includes(x)] on an array of numbers. *)
Definition includesZ (a : list Z) (x : Z) : bool := existsb (Z.eqb x) a.

(** The loop over the key indices: each key goes to the white or to the
    black keys by its position in the octave ([%] is the remainder). *)
Definition keys : list Z * list Z :=
  fold_left
    (fun (acc : list Z * list Z) (i : nat) =>
       let (whiteKeys, blackKeys) := acc in
       let noteInOctave := Z.rem (Z.of_nat i) 12 in
       let midiNote := startNote + Z.of_nat i in
       if includesZ whiteKeyPattern noteInOctave
       then (whiteKeys ++ [midiNote], blackKeys)
       else if includesZ blackKeyPattern noteInOctave
            then (whiteKeys, blackKeys ++ [midiNote])
            else (whiteKeys, blackKeys))
    (seq 0 totalKeys) ([], []).

Definition whiteKeys : list Z := fst keys.
Definition blackKeys : list Z := snd keys.

(** The black key drawn to the right of a white key, [None] for [null]. *)
Definition blackKeyMidi (whiteKeyMidi : Z) : option Z :=
  let noteInOctave := Z.rem whiteKeyMidi 12 in
  if noteInOctave =? 0 then Some (whiteKeyMidi + 1)
  else if noteInOctave =? 2 then Some (whiteKeyMidi + 1)
  else if noteInOctave =? 5 then Some (whiteKeyMidi + 1)
  else if noteInOctave =? 7 then Some (whiteKeyMidi + 1)
  else if noteInOctave =? 9 then Some (whiteKeyMidi + 1)
  else None.

(** The white keys drawn, each with its [isActive] flag. *)
Definition whiteRow (notes : list Z) : list (Z * bool) :=
  map (fun midiNote => (midiNote, includesZ notes midiNote)) whiteKeys.

(** The black keys drawn, each with its [isActive] flag: a white key
    without a black key to its right draws nothing. A black key number is
    never 0, so it is truthy whenever it is not [null]. *)
Definition blackRow (notes : list Z) : list (Z * bool) :=
  flat_map
    (fun whiteKeyMidi =>
       match blackKeyMidi whiteKeyMidi with
       | Some b =>
           let hasBlackKey := includesZ blackKeys b in
           let isActive := includesZ notes b in
           if hasBlackKey then [(b, isActive)] else []
       | None => []
       end)
    whiteKeys.

(** The keys drawn in the highlight colour. *)
Definition activeKeys (notes : list Z) : list Z :=
  map fst (filter snd (whiteRow notes ++ blackRow notes)).

End KeyboardDiagram.

(* ------------------------------------------------------------------ *)
(** ** The by-name tab: the chord collection *)

Module ByNameTab.

Record SelectedChord := mkSelected {
  chord : ChordData;
  order : Z;
  isDisplayed : bool
}.

(** A [Map] with string keys: the entries in insertion order, one per
    key; [set] on a present key keeps its position. *)
Definition StrMap (V : Type) := list (str * V).

Fixpoint mapGet {V} (k : str) (m : StrMap V) : option V :=
  match m with
  | [] => None
  | (k', v) :: m' => if str_eqb k k' then Some v else mapGet k m'
  end.

Definition mapHas {V} (k : str) (m : StrMap V) : bool :=
  match mapGet k m with Some _ => true | None => false end.

Fixpoint mapSet {V} (k : str) (v : V) (m : StrMap V) : StrMap V :=
  match m with
  | [] => [(k, v)]
  | (k', v') :: m' =>
      if str_eqb k k' then (k', v) :: m' else (k', v') :: mapSet k v m'
  end.

Fixpoint mapDelete {V} (k : str) (m : StrMap V) : StrMap V :=
  match m with
  | [] => []
  | (k', v') :: m' =>
      if str_eqb k k' then m' else (k', v') :: mapDelete k m'
  end.

Definition mapValues {V} (m : StrMap V) : list V := map snd m.

(** The component state. *)
Record State := mkState {
  searchQuery : str;
  searchResults : list ChordData;
  chordCollection : StrMap SelectedChord;
  selectionOrder : Z
}.

Definition initialState : State := mkState [] [] [] 0.

(** Each handler returns the next state and the alert shown, if any. *)
Definition addToCollection (c : ChordData) (st : State)
  : State * option str :=
  if (7 <=? length (chordCollection st))%nat then
    (st, Some (lit "Maximum 7 chords allowed in collection"))
  else if mapHas (name c) (chordCollection st) then
    (st, Some (lit "Chord already in collection"))
  else
    let newCollection :=
      mapSet (name c) (mkSelected c (selectionOrder st) false)
        (chordCollection st) in
    (mkState [] [] newCollection (selectionOrder st + 1), None).

Definition removeFromCollection (chordName : str) (st : State) : State :=
  mkState (searchQuery st) (searchResults st)
    (mapDelete chordName (chordCollection st)) (selectionOrder st).

Definition toggleChordDisplay (chordName : str) (st : State) : State :=
  match mapGet chordName (chordCollection st) with
  | Some chordItem =>
      mkState (searchQuery st) (searchResults st)
        (mapSet chordName
           (mkSelected (chord chordItem) (order chordItem)
              (negb (isDisplayed chordItem)))
           (chordCollection st))
        (selectionOrder st)
  | None => st
  end.

Definition byOrder (a b : SelectedChord) : Z := order a - order b.

Definition displayedChords (st : State) : list SelectedChord :=
  sortBy byOrder (filter isDisplayed (mapValues (chordCollection st))).

Definition collectionChords (st : State) : list SelectedChord :=
  sortBy byOrder (mapValues (chordCollection st)).

(** The clicks of a user, and the state they lead to. *)
Inductive Event :=
| Add (c : ChordData)
| Remove (chordName : str)
| Toggle (chordName : str).

Definition handle (st : State) (e : Event) : State :=
  match e with
  | Add c => fst (addToCollection c st)
  | Remove chordName => removeFromCollection chordName st
  | Toggle chordName => toggleChordDisplay chordName st
  end.

Definition run (events : list Event) : State :=
  fold_left handle events initialState.

End ByNameTab.

(* ------------------------------------------------------------------ *)
(** ** Definitions used to state the properties *)

(** Strictly increasing pitch sequences. *)
Definition strictlyIncreasing (l : list Z) : Prop := Sorted Z.lt l.

(** Pitches within the range of the data model. *)
Definition inMidiRange (l : list Z) : Prop :=
  Forall (fun p => 0 <= p <= 127) l.

(** Labels for which the pitch mapper returns numbers: none of them,
    trimmed, names an inherited member. *)
Definition numberLabels (labels : list str) : Prop :=
  Forall (fun label => noteToMidi_isNumber label = true) labels.

(** The five tiers of the ranking, in the words of the specification:
    [a] is ranked no lower than [b] for the lowercased query [q] when an
    exact match stands against none, or else a name starting with the
    query against one that does not, or else a major triad against
    another chord, or else the shorter lowercased name, or else the
    lowercased name that the collation does not put after the other. *)
Definition exactMatch (q : str) (c : ChordData) : Prop :=
  toLowerCase (name c) = q.

Definition startsWithQuery (q : str) (c : ChordData) : Prop :=
  exists rest, toLowerCase (name c) = q ++ rest.

Definition majorTriad (c : ChordData) : Prop :=
  type c = lit "Major" /\ extension c = lit "Triad".

Definition rankedNoLower (localeCompare : str -> str -> Z) (q : str)
  (a b : ChordData) : Prop :=
  (exactMatch q a /\ ~ exactMatch q b)
  \/ ((exactMatch q a <-> exactMatch q b)
      /\ ((startsWithQuery q a /\ ~ startsWithQuery q b)
          \/ ((startsWithQuery q a <-> startsWithQuery q b)
              /\ ((majorTriad a /\ ~ majorTriad b)
                  \/ ((majorTriad a <-> majorTriad b)
                      /\ ((length (name a) < length (name b))%nat
                          \/ (length (name a) = length (name b)
                              /\ localeCompare (toLowerCase (name a))
                                               (toLowerCase (name b))
                                 <= 0))))))).

(** Pitch classes of a pitch sequence. *)
Definition pitchClasses (l : list Z) : list Z := map (fun p => p mod 12) l.



(** A collation to run the ranker with: lexicographic order on character
    codes, negative, zero or positive as [localeCompare] is. *)
Fixpoint codeCompare (a b : str) : Z :=
  match a, b with
  | [], [] => 0
  | [], _ :: _ => -1
  | _ :: _, [] => 1
  | x :: a', y :: b' =>
      if Ascii.eqb x y then codeCompare a' b'
      else if (N_of_ascii x <? N_of_ascii y)%N then -1 else 1
  end.

(** A catalog text: a header and one record per line. *)
Definition csvRecord (name notesStr type extension : string) : str :=
  lit name ++ comma :: dquote :: lit notesStr
           ++ dquote :: comma :: lit type ++ comma :: lit extension.

Definition csvOf (records : list str) : str :=
  lit "Chord,Notes,Type,Extension"
    ++ flat_map (fun r => newline :: r) records.

(** What every collection of the by-name tab satisfies: distinct keys, at
    most seven entries, each filed under its chord's name with an order
    number below the next one to give out, in increasing order of these
    numbers. *)
Definition collectionInvariant (st : ByNameTab.State) : Prop :=
  let coll := ByNameTab.chordCollection st in
  NoDup (map fst coll)
  /\ (length coll <= 7)%nat
  /\ Forall (fun kv => fst kv = name (ByNameTab.chord (snd kv))
                       /\ ByNameTab.order (snd kv)
                          < ByNameTab.selectionOrder st) coll
  /\ StronglySorted Z.lt (map (fun kv => ByNameTab.order (snd kv)) coll).

(** Case analysis on an integer comparison of the goal. *)
Ltac decide_order :=
  match goal with
  | |- context [?x <=? ?y] => destruct (Z.leb_spec x y); try lia
  | |- context [?x >? ?y] =>
      rewrite (Z.gtb_ltb x y); destruct (Z.ltb_spec y x); try lia
  end.

(* ------------------------------------------------------------------ *)
(** * Properties *)

(** ** Strings *)

Lemma str_eqb_eq (a b : str) : str_eqb a b = true <-> a = b.
Proof.
  revert b; induction a as [|x a IH]; intros [|y b]; simpl;
    try (split; [discriminate | congruence]); try tauto.
  rewrite andb_true_iff, Ascii.eqb_eq, IH.
  split; [intros [-> ->]; reflexivity | intros H; inversion H; auto].
Qed.

Lemma str_eqb_refl (a : str) : str_eqb a a = true.
Proof. apply str_eqb_eq; reflexivity. Qed.

Lemma startsWith_iff (s q : str) :
  startsWith s q = true <-> exists post, s = q ++ post.
Proof.
  revert s; induction q as [|c q IH]; intros s; simpl.
  - split; [intros _; exists s; reflexivity | destruct s; reflexivity].
  - destruct s as [|d s]; simpl.
    + split; [discriminate | intros [post H]; discriminate].
    + rewrite andb_true_iff, Ascii.eqb_eq, IH. split.
      * intros [-> [post ->]]. exists post; reflexivity.
      * intros [post H]. inversion H; subst. split; [reflexivity|].
        exists post; reflexivity.
Qed.

Lemma includes_iff (s q : str) :
  includes s q = true <-> exists pre post, s = pre ++ q ++ post.
Proof.
  induction s as [|d s IH].
  - change (includes [] q) with (startsWith [] q || false).
    rewrite orb_false_r, startsWith_iff. split.
    + intros [post H]. exists [], post. exact H.
    + intros [pre [post H]]. destruct pre; simpl in H.
      * exists post; exact H.
      * discriminate.
  - change (includes (d :: s) q)
      with (startsWith (d :: s) q || includes s q).
    rewrite orb_true_iff, startsWith_iff, IH. split.
    + intros [[post H] | [pre [post H]]].
      * exists [], post. exact H.
      * exists (d :: pre), post. simpl. rewrite H. reflexivity.
    + intros [[|c pre] [post H]]; simpl in H.
      * left. exists post; exact H.
      * right. inversion H; subst. exists pre, post; reflexivity.
Qed.

(** ** The octave-raising loop *)

Lemma octaveLoop_spec (fuel : nat) : forall prev note,
  (prev - note) / 12 + 1 <= Z.of_nat fuel ->
  exists k, 0 <= k /\ octaveLoop fuel prev note = note + 12 * k
            /\ prev < note + 12 * k
            /\ (0 < k -> note + 12 * (k - 1) <= prev).
Proof.
  induction fuel as [|fuel IH]; intros prev note Hfuel.
  - assert (prev < note).
    { destruct (Z_lt_le_dec prev note) as [|Hle]; [assumption|].
      assert (0 <= (prev - note) / 12) by (apply Z.div_pos; lia). lia. }
    exists 0. cbn [octaveLoop]. repeat split; lia.
  - cbn [octaveLoop]. destruct (Z.leb_spec note prev) as [Hle|Hgt].
    + destruct (IH prev (note + 12)) as [k [Hk [Heq [Hgt Hmin]]]].
      { replace (prev - (note + 12)) with (prev - note + (-1) * 12) by lia.
        rewrite Z.div_add by lia. lia. }
      exists (k + 1). rewrite Heq. repeat split; lia.
    + exists 0. repeat split; lia.
Qed.

(** The number of additions of 12 made by the loop, characterised: the
    result is the first of [note], [note + 12], [note + 24], ... that is
    strictly greater than [prev]. *)
Lemma raiseAbove_spec (prev note : Z) :
  exists k, 0 <= k /\ raiseAbove prev note = note + 12 * k
            /\ prev < raiseAbove prev note
            /\ (0 < k -> raiseAbove prev note - 12 <= prev).
Proof.
  unfold raiseAbove.
  destruct (octaveLoop_spec (Z.to_nat ((prev - note) / 12 + 1)) prev note)
    as [k [Hk [Heq [Hgt Hmin]]]]; [lia|].
  exists k. rewrite Heq. repeat split; lia.
Qed.

Lemma raiseAbove_gt (prev note : Z) : prev < raiseAbove prev note.
Proof. destruct (raiseAbove_spec prev note) as [k H]; tauto. Qed.

Lemma raiseAbove_id (prev note : Z) :
  prev < note -> raiseAbove prev note = note.
Proof.
  intros Hlt. destruct (raiseAbove_spec prev note) as [k [Hk [Heq [_ Hmin]]]].
  destruct (Z.eq_dec k 0) as [->|Hne]; [lia|].
  assert (Hpos : 0 < k) by lia. specialize (Hmin Hpos). lia.
Qed.

(** The equation of the [while] loop: the fuel of [raiseAbove] never
    runs out before the test fails. *)
Lemma raiseAbove_unfold (prev note : Z) :
  raiseAbove prev note =
  if note <=? prev then raiseAbove prev (note + 12) else note.
Proof.
  destruct (Z.leb_spec note prev) as [Hle|Hgt].
  - destruct (raiseAbove_spec prev note) as [k [Hk [Heq [Hgt Hmin]]]].
    destruct (raiseAbove_spec prev (note + 12))
      as [k' [Hk' [Heq' [Hgt' Hmin']]]].
    assert (k = k' + 1); [|lia].
    destruct (Z.eq_dec k 0) as [->|Hne]; [lia|].
    assert (Hpos : 0 < k) by lia. specialize (Hmin Hpos).
    destruct (Z.eq_dec k' 0) as [->|Hne']; [lia|].
    assert (Hpos' : 0 < k') by lia. specialize (Hmin' Hpos'). lia.
  - apply raiseAbove_id; assumption.
Qed.

Lemma raiseAbove_mod (prev note : Z) :
  raiseAbove prev note mod 12 = note mod 12.
Proof.
  destruct (raiseAbove_spec prev note) as [k [_ [-> _]]].
  rewrite Z.mul_comm. apply Z.mod_add. lia.
Qed.

Lemma raiseAbove_upper (prev note : Z) :
  raiseAbove prev note <= Z.max note (prev + 12).
Proof.
  destruct (raiseAbove_spec prev note) as [k [Hk [Heq [_ Hmin]]]].
  destruct (Z.eq_dec k 0) as [->|Hne]; [lia|].
  assert (Hpos : 0 < k) by lia. specialize (Hmin Hpos). lia.
Qed.

Lemma raiseAbove_lower (prev note : Z) : note <= raiseAbove prev note.
Proof. destruct (raiseAbove_spec prev note) as [k [Hk [-> _]]]. lia. Qed.

(** ** The ascending loop *)

Lemma ascend_length (l : list Z) : forall prev,
  length (ascend prev l) = length l.
Proof. induction l as [|x l IH]; intros prev; simpl; [|rewrite IH]; auto. Qed.

Lemma ascend_sorted (l : list Z) : forall prev,
  Sorted Z.lt (prev :: ascend prev l).
Proof.
  induction l as [|x l IH]; intros prev; simpl.
  - repeat constructor.
  - constructor; [apply IH|]. constructor. apply raiseAbove_gt.
Qed.

Lemma ascend_pitchClasses (l : list Z) : forall prev,
  pitchClasses (ascend prev l) = pitchClasses l.
Proof.
  induction l as [|x l IH]; intros prev; simpl; [reflexivity|].
  rewrite raiseAbove_mod. f_equal. apply IH.
Qed.

Lemma ascend_id (l : list Z) : forall prev,
  Sorted Z.lt (prev :: l) -> ascend prev l = l.
Proof.
  induction l as [|x l IH]; intros prev Hs; simpl; [reflexivity|].
  inversion Hs as [|? ? Hs' Hhd]; subst. inversion Hhd; subst.
  rewrite raiseAbove_id by assumption. f_equal. apply IH; assumption.
Qed.

(** Element [i] of the loop's output is element [i] of its input raised
    above the element pushed just before it. *)
Lemma ascend_nth (l : list Z) : forall prev i x before,
  nth_error l i = Some x ->
  nth_error (prev :: ascend prev l) i = Some before ->
  nth_error (ascend prev l) i = Some (raiseAbove before x).
Proof.
  induction l as [|y l IH]; intros prev i x before Hx Hb.
  - destruct i; discriminate.
  - destruct i as [|i]; simpl in *.
    + congruence.
    + apply (IH _ _ _ _ Hx Hb).
Qed.

Lemma ascend_bounds (l : list Z) : forall prev i v,
  (forall x, In x l -> 60 <= x <= 71) ->
  nth_error (ascend prev l) i = Some v ->
  60 <= v <= Z.max 71 prev + 12 * (Z.of_nat i + 1).
Proof.
  induction l as [|x l IH]; intros prev i v Hl Hv.
  - destruct i; discriminate.
  - assert (Hx : 60 <= x <= 71) by (apply Hl; left; reflexivity).
    pose proof (raiseAbove_upper prev x) as Hup.
    pose proof (raiseAbove_lower prev x) as Hlo.
    destruct i as [|i]; simpl in Hv.
    + injection Hv as <-. lia.
    + apply IH in Hv; [|intros z Hz; apply Hl; right; exact Hz]. lia.
Qed.

(** ** The pitch mapper *)

Lemma lookup_In (key : str) (m : list (str * Z)) (v : Z) :
  lookup key m = Some v -> In (key, v) m.
Proof.
  induction m as [|[k w] m IH]; simpl; [discriminate|].
  destruct (str_eqb key k) eqn:E.
  - intros [= ->]. apply str_eqb_eq in E. subst. left; reflexivity.
  - intros H. right. apply IH, H.
Qed.

Lemma noteMap_range (key : str) (v : Z) :
  In (key, v) noteMap -> 0 <= v <= 11.
Proof.
  unfold noteMap. simpl.
  intros H; repeat (destruct H as [H|H]; [injection H as _ <-; lia|]).
  destruct H.
Qed.

(** The number given by [noteToMidi] lies between 60 and 71; it is the
    source's result wherever [noteToMidi_isNumber] holds. *)
Lemma noteToMidi_range (noteName : str) : 60 <= noteToMidi noteName <= 71.
Proof.
  unfold noteToMidi, getProperty. cbv zeta.
  destruct (lookup (trim noteName) noteMap) as [v|] eqn:E.
  - apply lookup_In, noteMap_range in E. lia.
  - destruct (inheritedMember (trim noteName)); lia.
Qed.

(** C6 (pitch mapper, enharmonic aliases).  The label C maps to 60; any
    two labels of the note table that name the same pitch class map to
    the same pitch number, 60 plus the class; each of the twelve classes
    has a label; and the five sharp/flat pairs (C#/Db, D#/Eb, F#/Gb,
    G#/Ab, A#/Bb) map to 61, 63, 66, 68 and 70. *)
Theorem noteToMidi_enharmonic :
  noteToMidi (lit "C") = 60
  /\ (forall a b pc, In (a, pc) noteMap -> In (b, pc) noteMap ->
        noteToMidi a = 60 + pc /\ noteToMidi b = noteToMidi a)
  /\ Forall (fun pc => exists label, In (label, pc) noteMap)
       [0; 1; 2; 3; 4; 5; 6; 7; 8; 9; 10; 11]
  /\ (noteToMidi (lit "C#") = 61 /\ noteToMidi (lit "Db") = 61)
  /\ (noteToMidi (lit "D#") = 63 /\ noteToMidi (lit "Eb") = 63)
  /\ (noteToMidi (lit "F#") = 66 /\ noteToMidi (lit "Gb") = 66)
  /\ (noteToMidi (lit "G#") = 68 /\ noteToMidi (lit "Ab") = 68)
  /\ (noteToMidi (lit "A#") = 70 /\ noteToMidi (lit "Bb") = 70).
Proof.
  assert (Hone : forall a pc, In (a, pc) noteMap -> noteToMidi a = 60 + pc).
  { intros a pc H. unfold noteMap in H. simpl in H.
    repeat (destruct H as [H|H];
            [injection H as <- <-; vm_compute; reflexivity|]).
    destruct H. }
  split; [reflexivity|]. split.
  { intros a b pc Ha Hb. rewrite (Hone _ _ Ha), (Hone _ _ Hb). auto. }
  split.
  { repeat constructor;
      match goal with
      | |- exists label, In (label, ?pc) noteMap =>
          let rec find m :=
            lazymatch m with
            | (?k, pc) :: _ => exists k; unfold noteMap; simpl; tauto
            | _ :: ?m' => find m'
            end in
          let m := eval unfold noteMap in noteMap in find m
      end. }
  repeat split; reflexivity.
Qed.

Lemma noteToMidi_enharmonic_witness :
  noteToMidi (lit "C#") = 60 + 1
  /\ noteToMidi (lit "Db") = noteToMidi (lit "C#").
Proof.
  apply (proj1 (proj2 noteToMidi_enharmonic) (lit "C#") (lit "Db") 1);
    unfold noteMap; simpl; tauto.
Defined.

(** ** Pitch assignment of the parser *)

(** C3 (pitch assignment, failing input).  A label that names an
    inherited member is read from the note table as that member: the
    read is not [undefined], the pitch mapper returns no number and logs
    no warning, and a record holding such a label is parsed into an entry
    without any diagnostic.  The other labels of the same list are mapped
    as usual. *)
Theorem inherited_label_not_a_pitch :
  getProperty (lit "constructor") noteMap = Inherited (lit "constructor")
  /\ noteToMidi_isNumber (lit "constructor") = false
  /\ noteToMidi_warn (lit "constructor") = []
  /\ map noteToMidi_isNumber (map lit ["C"; "constructor"; "E"]%string)
     = [true; false; true]
  /\ (exists entry,
        parseLine (csvRecord "P" "C,constructor,E" "Major" "Triad")
        = ([entry], [])
        /\ notes entry = map lit ["C"; "constructor"; "E"]%string)
  /\ noteToMidi_warn (lit "H") = [lit "Unknown note: H"].
Proof.
  repeat split. eexists. split; vm_compute; reflexivity.
Qed.

(** X24.  For a non-empty list of labels none of which names an
    inherited member, the first label's pitch is taken as mapped; each
    later label's mapped pitch is raised by the least number [k] of
    additions of 12 that makes it strictly greater than the pitch
    accepted just before it; the result has one pitch per label and is
    strictly increasing. *)
Theorem convertChordNotesToMidi_ascending (labels : list str) :
  labels <> [] ->
  numberLabels labels ->
  let midi := convertChordNotesToMidi labels in
  length midi = length labels
  /\ nth_error midi 0 = option_map noteToMidi (nth_error labels 0)
  /\ (forall i label before,
        nth_error labels (S i) = Some label ->
        nth_error midi i = Some before ->
        exists k, 0 <= k
          /\ nth_error midi (S i) = Some (noteToMidi label + 12 * k)
          /\ before < noteToMidi label + 12 * k
          /\ (0 < k -> noteToMidi label + 12 * (k - 1) <= before))
  /\ strictlyIncreasing midi.
Proof.
  destruct labels as [|first others]; [congruence|]. intros _ _.
  cbn [convertChordNotesToMidi]. cbv zeta.
  split; [simpl; rewrite ascend_length, length_map; reflexivity|].
  split; [reflexivity|]. split.
  - intros i label before Hl Hb.
    cbn [nth_error] in Hl.
    assert (Hm : nth_error (map noteToMidi others) i
                 = Some (noteToMidi label))
      by (rewrite nth_error_map, Hl; reflexivity).
    pose proof (ascend_nth _ _ _ _ _ Hm Hb) as Hn.
    destruct (raiseAbove_spec before (noteToMidi label))
      as [k [Hk [Heq [Hgt Hmin]]]].
    exists k. cbn [nth_error]. rewrite Hn, Heq.
    repeat split; lia.
  - apply ascend_sorted.
Qed.

Lemma convertChordNotesToMidi_ascending_witness :
  let midi := convertChordNotesToMidi (map lit ["F"; "G#"; "C"; "D"]%string) in
  midi = [65; 68; 72; 74] /\ strictlyIncreasing midi.
Proof.
  split; [reflexivity|].
  apply (convertChordNotesToMidi_ascending
           (map lit ["F"; "G#"; "C"; "D"]%string)).
  - discriminate.
  - repeat constructor.
Defined.

(** ** Raising, rotating and normalizing *)

Lemma addOctave_at (pre post : list Z) (v : Z) :
  addOctave (length pre) (pre ++ v :: post) = pre ++ (v + 12) :: post.
Proof.
  unfold addOctave.
  rewrite nth_error_app2, Nat.sub_diag by lia. cbn [nth_error].
  rewrite firstn_app, Nat.sub_diag, firstn_all, firstn_O, app_nil_r.
  replace (S (length pre)) with (length pre + 1)%nat by lia.
  rewrite skipn_app, Nat.add_comm, skipn_all2 by lia.
  replace (1 + length pre - length pre)%nat with 1%nat by lia.
  reflexivity.
Qed.

(** The raising loop adds 12 to the first [inv] notes and leaves the
    others. *)
Lemma raiseFirst_spec (inv : nat) : forall rootNotes,
  (inv <= length rootNotes)%nat ->
  raiseFirst inv rootNotes =
  map (fun x => x + 12) (firstn inv rootNotes) ++ skipn inv rootNotes.
Proof.
  unfold raiseFirst. induction inv as [|inv IH]; intros l Hlen.
  - reflexivity.
  - rewrite seq_S, fold_left_app, IH by lia. cbn [fold_left Nat.add].
    destruct (nth_error l inv) as [v|] eqn:E;
      [|apply nth_error_None in E; lia].
    assert (Hsk : skipn inv l = v :: skipn (S inv) l).
    { clear -E. revert l E. induction inv as [|inv IH]; intros [|x l] E;
        try discriminate; simpl in *; [congruence | apply IH, E]. }
    assert (Hfi : firstn (S inv) l = firstn inv l ++ [v]).
    { clear -E. revert l E. induction inv as [|inv IH]; intros [|x l] E;
        try discriminate; simpl in *; [congruence|].
      f_equal. apply IH, E. }
    rewrite Hsk, Hfi, map_app. cbn [map].
    rewrite <- app_assoc. cbn [app].
    replace inv with (length (map (fun x => x + 12) (firstn inv l))) at 1
      by (rewrite length_map, length_firstn; lia).
    apply addOctave_at.
Qed.

Lemma rotate_raiseFirst (inv : nat) (rootNotes : list Z) :
  (inv <= length rootNotes)%nat ->
  rotate inv (raiseFirst inv rootNotes) =
  skipn inv rootNotes ++ map (fun x => x + 12) (firstn inv rootNotes).
Proof.
  intros Hlen. rewrite raiseFirst_spec by assumption. unfold rotate.
  assert (Hl : length (map (fun x => x + 12) (firstn inv rootNotes)) = inv)
    by (rewrite length_map, length_firstn; lia).
  rewrite skipn_app, firstn_app, Hl, Nat.sub_diag.
  rewrite skipn_all2, firstn_all2 by lia.
  cbn [skipn firstn app]. rewrite app_nil_r. reflexivity.
Qed.

Lemma normalize_length (l : list Z) : length (normalize l) = length l.
Proof. destruct l; simpl; [|rewrite ascend_length]; reflexivity. Qed.

Lemma normalize_sorted (l : list Z) : strictlyIncreasing (normalize l).
Proof. destruct l; simpl; [constructor | apply ascend_sorted]. Qed.

Lemma normalize_pitchClasses (l : list Z) :
  pitchClasses (normalize l) = pitchClasses l.
Proof.
  destruct l as [|x l]; [reflexivity|].
  unfold normalize. change (pitchClasses (x :: ascend x l))
    with (x mod 12 :: pitchClasses (ascend x l)).
  rewrite ascend_pitchClasses. reflexivity.
Qed.

Lemma normalize_id (l : list Z) : strictlyIncreasing l -> normalize l = l.
Proof.
  destruct l as [|x l]; [reflexivity|]. intros Hs. simpl.
  f_equal. apply ascend_id, Hs.
Qed.

Lemma shift_pitchClasses (d : Z) (l : list Z) :
  pitchClasses (map (fun x => x + 12 * d) l) = pitchClasses l.
Proof.
  unfold pitchClasses. rewrite map_map. apply map_ext. intros x.
  rewrite Z.mul_comm. apply Z.mod_add. lia.
Qed.

Lemma shift_sorted (d : Z) (l : list Z) :
  Sorted Z.lt l -> Sorted Z.lt (map (fun x => x + d) l).
Proof.
  induction 1 as [|x l Hs IH Hhd]; simpl; constructor; auto.
  destruct Hhd; simpl; constructor. lia.
Qed.

Lemma sortedInversion_length (rootNotes : list Z) (inv : nat) :
  (inv <= length rootNotes)%nat ->
  length (sortedInversion rootNotes inv) = length rootNotes.
Proof.
  intros Hlen. unfold sortedInversion.
  rewrite normalize_length, rotate_raiseFirst by assumption.
  rewrite length_app, length_map, length_skipn, length_firstn. lia.
Qed.

Lemma sortedInversion_pitchClasses (rootNotes : list Z) (inv : nat) :
  (inv <= length rootNotes)%nat ->
  Permutation (pitchClasses (sortedInversion rootNotes inv))
              (pitchClasses rootNotes).
Proof.
  intros Hlen. unfold sortedInversion.
  rewrite normalize_pitchClasses, rotate_raiseFirst by assumption.
  unfold pitchClasses at 1. rewrite map_app.
  fold (pitchClasses (skipn inv rootNotes)).
  fold (pitchClasses (map (fun x => x + 12) (firstn inv rootNotes))).
  rewrite (shift_pitchClasses 1).
  rewrite <- (firstn_skipn inv rootNotes) at 3.
  unfold pitchClasses. rewrite map_app. apply Permutation_app_comm.
Qed.

(** The notes of an inversion are the normalized sequence, or that
    sequence with 12 subtracted from every element. *)
Lemma inversion_notes (rootNotes : list Z) (inv : nat) :
  vnotes (inversion rootNotes inv) =
  if maxOf (sortedInversion rootNotes inv) >? KEYBOARD_MAX
  then map (fun note => note - 12) (sortedInversion rootNotes inv)
  else sortedInversion rootNotes inv.
Proof.
  unfold inversion. cbv zeta.
  destruct (maxOf (sortedInversion rootNotes inv) >? KEYBOARD_MAX);
    reflexivity.
Qed.

Lemma inversion_name (rootNotes : list Z) (inv : nat) :
  vname (inversion rootNotes inv) = inversionName inv.
Proof.
  unfold inversion. cbv zeta.
  destruct (maxOf (sortedInversion rootNotes inv) >? KEYBOARD_MAX);
    reflexivity.
Qed.

Lemma maxOf_spec (x : Z) (l : list Z) :
  In (maxOf (x :: l)) (x :: l) /\ forall y, In y (x :: l) -> y <= maxOf (x :: l).
Proof.
  unfold maxOf. revert x. induction l as [|z l IH]; intros x.
  - simpl. split; [auto|]. intros y [->|[]]. lia.
  - cbn [fold_left]. destruct (IH (Z.max x z)) as [Hin Hmax]. split.
    + destruct Hin as [Heq|Hin].
      * rewrite <- Heq. destruct (Z.max_spec x z) as [[_ ->]|[_ ->]];
          simpl; auto.
      * right; right; exact Hin.
    + intros y [->|[->|Hy]].
      * specialize (Hmax (Z.max y z) (or_introl eq_refl)). lia.
      * specialize (Hmax (Z.max x y) (or_introl eq_refl)). lia.
      * apply Hmax. right; exact Hy.
Qed.

Lemma calculateVoicings_unfold (chord : ChordData) :
  midiNotes chord <> [] ->
  calculateVoicings chord =
  mkVoicing (lit "Root") (midiNotes chord)
    :: map (inversion (midiNotes chord))
         (seq 1 (Nat.min (length (midiNotes chord)) 4 - 1)).
Proof.
  unfold calculateVoicings. destruct (midiNotes chord); [congruence|].
  reflexivity.
Qed.

(** ** Voicing generator *)

(** C1 (number of voicings, root position).  For an entry with
    [n >= 1] pitches, [calculateVoicings] returns exactly [min n 4]
    voicings, and the first one is labelled Root and carries the entry's
    pitches unchanged. *)
Theorem calculateVoicings_count_root (chord : ChordData) :
  (1 <= length (midiNotes chord))%nat ->
  length (calculateVoicings chord) = Nat.min (length (midiNotes chord)) 4
  /\ nth_error (calculateVoicings chord) 0
     = Some (mkVoicing (lit "Root") (midiNotes chord)).
Proof.
  intros Hn.
  rewrite calculateVoicings_unfold by (destruct (midiNotes chord);
                                       [simpl in Hn; lia | discriminate]).
  split; [|reflexivity].
  cbn [length]. rewrite length_map, length_seq. lia.
Qed.

Lemma calculateVoicings_count_root_witness :
  let chord := mkChord (lit "Fm6") (map lit ["F"; "G#"; "C"; "D"]%string)
                 [65; 68; 72; 74] (lit "Minor") (lit "6th") in
  length (calculateVoicings chord) = 4%nat
  /\ nth_error (calculateVoicings chord) 0
     = Some (mkVoicing (lit "Root") [65; 68; 72; 74]).
Proof.
  apply (calculateVoicings_count_root
           (mkChord (lit "Fm6") (map lit ["F"; "G#"; "C"; "D"]%string)
              [65; 68; 72; 74] (lit "Minor") (lit "6th"))).
  simpl. lia.
Defined.

(** Every voicing is the root position or the inversion of some index
    between 1 and [min n 4 - 1]. *)
Lemma calculateVoicings_In (chord : ChordData) (v : ChordVoicing) :
  In v (calculateVoicings chord) ->
  v = mkVoicing (lit "Root") (midiNotes chord)
  \/ exists inv, (1 <= inv < Nat.min (length (midiNotes chord)) 4)%nat
                 /\ v = inversion (midiNotes chord) inv.
Proof.
  unfold calculateVoicings.
  destruct (midiNotes chord) as [|x l] eqn:E; [intros []|].
  cbv zeta. intros [<-|Hin]; [left; reflexivity|].
  right. apply in_map_iff in Hin. destruct Hin as [inv [<- Hin]].
  apply in_seq in Hin. exists inv. split; [lia | reflexivity].
Qed.

(** C2 (voicing invariants).  For an entry whose [n >= 1] pitches lie in
    the range 0..127 of the data model and are strictly increasing, every
    voicing has [n] pitches, strictly increasing, with the same multiset
    of pitch classes (pitch modulo 12) as the entry. *)
Theorem calculateVoicings_invariants (chord : ChordData) (v : ChordVoicing) :
  inMidiRange (midiNotes chord) ->
  strictlyIncreasing (midiNotes chord) ->
  (1 <= length (midiNotes chord))%nat ->
  In v (calculateVoicings chord) ->
  length (vnotes v) = length (midiNotes chord)
  /\ strictlyIncreasing (vnotes v)
  /\ Permutation (pitchClasses (vnotes v)) (pitchClasses (midiNotes chord)).
Proof.
  intros _ Hs Hn Hin.
  apply calculateVoicings_In in Hin.
  destruct Hin as [->|[inv [Hinv ->]]].
  - simpl. auto.
  - assert (Hle : (inv <= length (midiNotes chord))%nat) by lia.
    rewrite inversion_notes.
    pose proof (sortedInversion_length _ _ Hle) as Hlen.
    pose proof (sortedInversion_pitchClasses _ _ Hle) as Hpc.
    pose proof (normalize_sorted
                  (rotate inv (raiseFirst inv (midiNotes chord)))) as Hso.
    fold (sortedInversion (midiNotes chord) inv) in Hso.
    destruct (maxOf (sortedInversion (midiNotes chord) inv) >? KEYBOARD_MAX).
    + split; [rewrite length_map; exact Hlen|]. split.
      * apply (shift_sorted (-12)), Hso.
      * rewrite <- Hpc. apply Permutation_refl'.
        apply (shift_pitchClasses (-1)).
    + auto.
Qed.

Lemma calculateVoicings_invariants_witness :
  let chord := mkChord (lit "B") (map lit ["B"; "D#"; "F#"]%string)
                 [71; 75; 78] (lit "Major") (lit "Triad") in
  let v := mkVoicing (lit "2nd Inv") [66; 71; 75] in
  length (vnotes v) = length (midiNotes chord)
  /\ strictlyIncreasing (vnotes v)
  /\ Permutation (pitchClasses (vnotes v)) (pitchClasses (midiNotes chord)).
Proof.
  apply (calculateVoicings_invariants
           (mkChord (lit "B") (map lit ["B"; "D#"; "F#"]%string)
              [71; 75; 78] (lit "Major") (lit "Triad"))
           (mkVoicing (lit "2nd Inv") [66; 71; 75])).
  - repeat constructor; lia.
  - repeat constructor.
  - simpl. lia.
  - vm_compute. tauto.
Defined.

(** C5 (range policy).  For an entry with [n] pitches in the range
    0..127 and an inversion index [1 <= inv < min n 4]: let [rotated] be
    the pitches with the first [inv] raised by 12 and moved behind the
    others, and [sorted] its normalization from left to right, which
    keeps the first element and raises every later one by the least
    number of additions of 12 that puts it above the one before.  The
    voicing at position [inv] holds [sorted] unchanged when the greatest
    element of [sorted] is at most 83, and [sorted] with 12 subtracted
    from every element, once, when that element exceeds 83, whatever the
    greatest element is after the subtraction. *)
Theorem calculateVoicings_range_policy (chord : ChordData) (inv : nat) :
  inMidiRange (midiNotes chord) ->
  (1 <= inv)%nat ->
  (inv < Nat.min (length (midiNotes chord)) 4)%nat ->
  let rotated := skipn inv (midiNotes chord)
                 ++ map (fun p => p + 12) (firstn inv (midiNotes chord)) in
  exists sorted highestNote,
    length sorted = length rotated
    /\ nth_error sorted 0 = nth_error rotated 0
    /\ (forall i note before,
          nth_error rotated (S i) = Some note ->
          nth_error sorted i = Some before ->
          exists k, 0 <= k
            /\ nth_error sorted (S i) = Some (note + 12 * k)
            /\ before < note + 12 * k
            /\ (0 < k -> note + 12 * (k - 1) <= before))
    /\ In highestNote sorted
    /\ (forall note, In note sorted -> note <= highestNote)
    /\ option_map vnotes (nth_error (calculateVoicings chord) inv)
       = Some (if 83 <? highestNote
               then map (fun note => note - 12) sorted
               else sorted).
Proof.
  intros _ H1 Hlt rotated.
  assert (Hne : midiNotes chord <> [])
    by (destruct (midiNotes chord); [simpl in Hlt; lia | discriminate]).
  assert (Hrot : rotate inv (raiseFirst inv (midiNotes chord)) = rotated)
    by (apply rotate_raiseFirst; lia).
  assert (Hlen : length rotated = length (midiNotes chord)).
  { unfold rotated.
    rewrite length_app, length_map, length_skipn, length_firstn. lia. }
  exists (normalize rotated), (maxOf (normalize rotated)).
  destruct rotated as [|x t] eqn:E;
    [destruct (midiNotes chord); [congruence | discriminate]|].
  cbn [normalize].
  split; [cbn [length]; rewrite ascend_length; reflexivity|].
  split; [reflexivity|]. split.
  { intros i note before Hn Hb. cbn [nth_error] in Hn.
    pose proof (ascend_nth _ _ _ _ _ Hn Hb) as Hs.
    destruct (raiseAbove_spec before note) as [k [Hk [Heq [Hgt Hmin]]]].
    exists k. cbn [nth_error]. rewrite Hs, Heq. repeat split; lia. }
  split; [apply maxOf_spec|]. split; [apply maxOf_spec|].
  rewrite calculateVoicings_unfold by assumption.
  destruct inv as [|inv]; [lia|]. cbn [nth_error].
  rewrite nth_error_map.
  replace (nth_error (seq 1 (Nat.min (length (midiNotes chord)) 4 - 1)) inv)
    with (Some (S inv)).
  2:{ symmetry. rewrite nth_error_nth' with (d := 0%nat)
        by (rewrite length_seq; lia).
      rewrite seq_nth by lia. reflexivity. }
  cbn [option_map]. f_equal.
  rewrite inversion_notes. unfold sortedInversion, KEYBOARD_MAX.
  rewrite Hrot, Z.gtb_ltb. reflexivity.
Qed.

Lemma calculateVoicings_range_policy_witness :
  exists sorted highestNote,
    length sorted = length [110; 112]
    /\ nth_error sorted 0 = nth_error [110; 112] 0
    /\ (forall i note before,
          nth_error [110; 112] (S i) = Some note ->
          nth_error sorted i = Some before ->
          exists k, 0 <= k
            /\ nth_error sorted (S i) = Some (note + 12 * k)
            /\ before < note + 12 * k
            /\ (0 < k -> note + 12 * (k - 1) <= before))
    /\ In highestNote sorted
    /\ (forall note, In note sorted -> note <= highestNote)
    /\ option_map vnotes
         (nth_error (calculateVoicings
                       (mkChord (lit "X") (map lit ["E"; "D"]%string)
                          [100; 110] (lit "Major") (lit "Triad"))) 1)
       = Some (if 83 <? highestNote
               then map (fun note => note - 12) sorted
               else sorted).
Proof.
  refine (calculateVoicings_range_policy
            (mkChord (lit "X") (map lit ["E"; "D"]%string)
               [100; 110] (lit "Major") (lit "Triad")) 1 _ _ _).
  - repeat constructor; lia.
  - lia.
  - simpl. lia.
Defined.

(** The downward shift is not repeated: the inversion of [100; 110] is
    normalized to [110; 112], shifted once to [98; 100] and emitted,
    although 100 still exceeds 83. *)
Example range_shift_not_iterated :
  let chord := mkChord (lit "X") (map lit ["E"; "D"]%string)
                 [100; 110] (lit "Major") (lit "Triad") in
  sortedInversion (midiNotes chord) 1 = [110; 112]
  /\ map vnotes (calculateVoicings chord) = [[100; 110]; [98; 100]]
  /\ 83 < maxOf [98; 100].
Proof. repeat split. Qed.

(** ** The record matcher *)







(** ** The parser *)


Lemma parseLines_cons (raw : str) (rest : list str) :
  parseLines (raw :: rest) =
  (fst (parseLine raw) ++ fst (parseLines rest),
   snd (parseLine raw) ++ snd (parseLines rest)).
Proof.
  simpl. destruct (parseLine raw), (parseLines rest). reflexivity.
Qed.

(** What one line contributes: nothing when blank, a warning when it does
    not match, and otherwise the entry built from the four groups. *)
Lemma parseLine_cases (raw : str) :
  (trim raw = [] /\ parseLine raw = ([], []))
  \/ (trim raw <> [] /\ matchLine (trim raw) = None
      /\ parseLine raw = ([], [lit "Could not parse line: " ++ trim raw]))
  \/ (exists n ns t e,
        trim raw <> [] /\ matchLine (trim raw) = Some (n, ns, t, e)
        /\ parseLine raw =
           ([mkChord (trim n) (map trim (split comma ns))
               (convertChordNotesToMidi (map trim (split comma ns)))
               (trim t) (trim e)],
            flat_map noteToMidi_warn (map trim (split comma ns)))).
Proof.
  unfold parseLine. cbv zeta.
  destruct (trim raw) as [|c line] eqn:E; [left; auto|].
  right. destruct (matchLine (c :: line)) as [[[[n ns] t] e]|].
  - right. exists n, ns, t, e. repeat split. discriminate.
  - left. repeat split. discriminate.
Qed.

Lemma split_nonempty (sep : ascii) (s : str) : split sep s <> [].
Proof.
  destruct s as [|c s]; simpl; [discriminate|].
  destruct (Ascii.eqb c sep); [discriminate|].
  destruct (split sep s); discriminate.
Qed.

(** Every parsed entry has at least one note label, and its pitches are
    those assigned to its labels. *)
Lemma parseLines_entry (lines : list str) (entry : ChordData) :
  In entry (fst (parseLines lines)) ->
  notes entry <> []
  /\ midiNotes entry = convertChordNotesToMidi (notes entry).
Proof.
  induction lines as [|raw lines IH]; [intros []|].
  rewrite parseLines_cons. cbn [fst]. rewrite in_app_iff.
  intros [Hin|Hin]; [|apply IH, Hin].
  destruct (parseLine_cases raw)
    as [[_ E]|[[_ [_ E]]|[n [ns [t [e [_ [_ E]]]]]]]];
    rewrite E in Hin; cbn [fst] in Hin; try destruct Hin as [<-|[]];
    try destruct Hin.
  cbn [notes midiNotes]. split; [|reflexivity].
  intros Hnil. apply map_eq_nil in Hnil. exact (split_nonempty _ _ Hnil).
Qed.

Lemma parseChordData_entry (source : option str) (entry : ChordData) :
  In entry (fst (parseChordData source)) ->
  notes entry <> []
  /\ midiNotes entry = convertChordNotesToMidi (notes entry).
Proof.
  destruct source as [csvText|]; [|intros []].
  apply parseLines_entry.
Qed.

Lemma convertChordNotesToMidi_bounds (labels : list str) (i : nat) (v : Z) :
  nth_error (convertChordNotesToMidi labels) i = Some v ->
  60 <= v <= 71 + 12 * Z.of_nat i.
Proof.
  destruct labels as [|first others]; [destruct i; discriminate|].
  cbn [convertChordNotesToMidi]. cbv zeta.
  pose proof (noteToMidi_range first) as Hr.
  destruct i as [|i]; cbn [nth_error].
  - intros [= <-]. lia.
  - intros Hv. apply ascend_bounds in Hv.
    + lia.
    + intros x Hx. apply in_map_iff in Hx. destruct Hx as [label [<- _]].
      apply noteToMidi_range.
Qed.

Lemma convertChordNotesToMidi_length (labels : list str) :
  length (convertChordNotesToMidi labels) = length labels.
Proof.
  destruct labels as [|first others]; [reflexivity|]. simpl.
  rewrite ascend_length, length_map. reflexivity.
Qed.

(** C7 (pitch range, failing input).  Six notes B in one record are
    assigned the pitches 71, 83, 95, 107, 119 and 131: the parser raises
    each note above the one before it and nothing keeps the result within
    0..127, the range that the data model and the repository's tests
    require of every pitch. *)
Theorem parsed_pitch_above_127 :
  let csvText := csvOf [csvRecord "X" "B,B,B,B,B,B" "Major" "Triad"] in
  let entry := mkChord (lit "X") (map lit ["B"; "B"; "B"; "B"; "B"; "B"]%string)
                 [71; 83; 95; 107; 119; 131] (lit "Major") (lit "Triad") in
  fst (parseChordData (Some csvText)) = [entry]
  /\ numberLabels (notes entry)
  /\ In 131 (midiNotes entry)
  /\ ~ (0 <= 131 <= 127).
Proof.
  split; [vm_compute; reflexivity|].
  split; [repeat constructor|].
  split; [simpl; tauto | lia].
Qed.




(** A catalog with a malformed line between two well-formed ones: the
    malformed line is reported and the two entries around it are parsed. *)
Example malformed_line_skipped :
  let csvText := csvOf [csvRecord "C" "C,E,G" "Major" "Triad";
                        lit "Cm,C,Eb,G,Minor,Triad";
                        csvRecord "D" "D,F#,A" "Major" "Triad"] in
  map name (fst (parseCsv csvText)) = [lit "C"; lit "D"]
  /\ map midiNotes (fst (parseCsv csvText)) = [[60; 64; 67]; [62; 66; 69]]
  /\ snd (parseCsv csvText)
     = [lit "Could not parse line: Cm,C,Eb,G,Minor,Triad"].
Proof. vm_compute. repeat split. Qed.

(** ** Sorting with a comparator *)

Section SortBy.

Context {A : Type} (cmp : A -> A -> Z).

Lemma insertBy_perm (x : A) (l : list A) :
  Permutation (insertBy cmp x l) (x :: l).
Proof.
  induction l as [|y l IH]; simpl; [reflexivity|].
  destruct (cmp x y <=? 0); [reflexivity|].
  rewrite IH. apply perm_swap.
Qed.

Lemma sortBy_perm (l : list A) : Permutation (sortBy cmp l) l.
Proof.
  induction l as [|x l IH]; simpl; [reflexivity|].
  rewrite insertBy_perm. constructor. exact IH.
Qed.

Lemma sortBy_length (l : list A) : length (sortBy cmp l) = length l.
Proof. apply Permutation_length, sortBy_perm. Qed.

Lemma sortBy_In (x : A) (l : list A) : In x (sortBy cmp l) <-> In x l.
Proof.
  split; apply Permutation_in;
    [apply sortBy_perm | apply Permutation_sym, sortBy_perm].
Qed.

(** A consistent comparator: of two elements one does not compare above
    the other, and not comparing above is transitive. *)
Hypothesis cmp_antisym : forall a b, 0 < cmp a b -> cmp b a <= 0.
Hypothesis cmp_trans :
  forall a b c, cmp a b <= 0 -> cmp b c <= 0 -> cmp a c <= 0.

Lemma insertBy_sorted (x : A) (l : list A) :
  StronglySorted (fun a b => cmp a b <= 0) l ->
  StronglySorted (fun a b => cmp a b <= 0) (insertBy cmp x l).
Proof.
  induction 1 as [|y l Hs IH Hy]; simpl.
  - repeat constructor.
  - destruct (Z.leb_spec (cmp x y) 0) as [Hle|Hgt].
    + constructor; [constructor; assumption|].
      constructor; [exact Hle|].
      eapply Forall_impl; [|exact Hy].
      intros z Hz. simpl in Hz. apply (cmp_trans _ _ _ Hle Hz).
    + constructor; [exact IH|].
      apply Forall_forall. intros z Hz.
      apply (Permutation_in _ (insertBy_perm x l)) in Hz.
      destruct Hz as [<-|Hz].
      * apply cmp_antisym, Hgt.
      * rewrite Forall_forall in Hy. apply Hy, Hz.
Qed.

Lemma sortBy_sorted (l : list A) :
  StronglySorted (fun a b => cmp a b <= 0) (sortBy cmp l).
Proof.
  induction l as [|x l IH]; simpl; [constructor|].
  apply insertBy_sorted, IH.
Qed.

End SortBy.

Lemma In_firstn {A} (n : nat) (x : A) (l : list A) :
  In x (firstn n l) -> In x l.
Proof.
  intros H. rewrite <- (firstn_skipn n l). apply in_app_iff. left; exact H.
Qed.

(** ** The collation used in examples is a consistent comparator *)

Lemma codeCompare_refl (a : str) : codeCompare a a = 0.
Proof.
  induction a as [|x a IH]; simpl; [reflexivity|].
  rewrite Ascii.eqb_refl. exact IH.
Qed.

Lemma codeCompare_antisym (a b : str) :
  0 < codeCompare a b -> codeCompare b a <= 0.
Proof.
  revert b; induction a as [|x a IH]; intros [|y b]; simpl; try lia.
  rewrite (Ascii.eqb_sym y x).
  destruct (Ascii.eqb x y) eqn:E; [apply IH|].
  destruct (N.ltb_spec (N_of_ascii x) (N_of_ascii y));
    destruct (N.ltb_spec (N_of_ascii y) (N_of_ascii x)); try lia.
  exfalso. assert (N_of_ascii x = N_of_ascii y) as Heq by lia.
  apply (f_equal ascii_of_N) in Heq. rewrite !ascii_N_embedding in Heq.
  subst. rewrite Ascii.eqb_refl in E. discriminate.
Qed.

Lemma codeCompare_trans (a b c : str) :
  codeCompare a b <= 0 -> codeCompare b c <= 0 -> codeCompare a c <= 0.
Proof.
  revert b c; induction a as [|x a IH]; intros [|y b] [|z c]; simpl;
    try lia.
  destruct (Ascii.eqb x y) eqn:Exy.
  - apply Ascii.eqb_eq in Exy. subst y.
    destruct (Ascii.eqb x z); [apply IH|]. auto.
  - destruct (Ascii.eqb y z) eqn:Eyz.
    + apply Ascii.eqb_eq in Eyz. subst z. rewrite Exy. auto.
    + destruct (N.ltb_spec (N_of_ascii x) (N_of_ascii y)); [|lia].
      destruct (N.ltb_spec (N_of_ascii y) (N_of_ascii z)); [|lia].
      intros _ _. destruct (Ascii.eqb x z) eqn:Exz.
      * apply Ascii.eqb_eq in Exz. subst z. lia.
      * destruct (N.ltb_spec (N_of_ascii x) (N_of_ascii z)); lia.
Qed.

(** ** Search ranker *)

Lemma ChordData_eq_dec (a b : ChordData) : {a = b} + {a <> b}.
Proof.
  pose proof ascii_dec as Hchar.
  pose proof (list_eq_dec Hchar) as Hstr.
  pose proof (list_eq_dec Hstr) as Hstrs.
  pose proof (list_eq_dec Z.eq_dec) as Hpitches.
  decide equality.
Qed.

Section SearchProperties.

Variable localeCompare : str -> str -> Z.

(** The five tiers of the comparator, each deciding when the ones before
    it do not. *)
Lemma compareChords_tiers (q : str) (a b : ChordData) :
  let aName := toLowerCase (name a) in
  let bName := toLowerCase (name b) in
  (str_eqb aName q = true -> str_eqb bName q = false ->
   compareChords localeCompare q a b < 0)
  /\ (str_eqb aName q = str_eqb bName q ->
      startsWith aName q = true -> startsWith bName q = false ->
      compareChords localeCompare q a b < 0)
  /\ (str_eqb aName q = str_eqb bName q ->
      startsWith aName q = startsWith bName q ->
      isSimple a = true -> isSimple b = false ->
      compareChords localeCompare q a b < 0)
  /\ (str_eqb aName q = str_eqb bName q ->
      startsWith aName q = startsWith bName q ->
      isSimple a = isSimple b ->
      (length aName < length bName)%nat ->
      compareChords localeCompare q a b < 0)
  /\ (str_eqb aName q = str_eqb bName q ->
      startsWith aName q = startsWith bName q ->
      isSimple a = isSimple b ->
      length aName = length bName ->
      compareChords localeCompare q a b = localeCompare aName bName).
Proof.
  cbv zeta. unfold compareChords. cbv zeta.
  destruct (str_eqb (toLowerCase (name a)) q),
           (str_eqb (toLowerCase (name b)) q),
           (startsWith (toLowerCase (name a)) q),
           (startsWith (toLowerCase (name b)) q),
           (isSimple a), (isSimple b);
    cbn [andb negb];
    destruct (Nat.eqb_spec (length (toLowerCase (name a)))
                           (length (toLowerCase (name b))));
    cbn [negb];
    repeat split; intros; try discriminate; try lia; reflexivity.
Qed.

Lemma exactMatch_reflect (q : str) (c : ChordData) :
  reflect (exactMatch q c) (str_eqb (toLowerCase (name c)) q).
Proof.
  apply iff_reflect. unfold exactMatch. symmetry. apply str_eqb_eq.
Qed.

Lemma startsWithQuery_reflect (q : str) (c : ChordData) :
  reflect (startsWithQuery q c) (startsWith (toLowerCase (name c)) q).
Proof.
  apply iff_reflect. unfold startsWithQuery. symmetry. apply startsWith_iff.
Qed.

Lemma majorTriad_reflect (c : ChordData) : reflect (majorTriad c) (isSimple c).
Proof.
  apply iff_reflect. unfold majorTriad, isSimple.
  rewrite andb_true_iff, !str_eqb_eq. reflexivity.
Qed.

(** The comparator of the source does not put [a] after [b] exactly when
    [a] is ranked no lower than [b] by the five tiers. *)
Lemma compareChords_ranked (q : str) (a b : ChordData) :
  compareChords localeCompare q a b <= 0 <-> rankedNoLower localeCompare q a b.
Proof.
  unfold compareChords, rankedNoLower. cbv zeta.
  replace (length (toLowerCase (name a))) with (length (name a))
    by (unfold toLowerCase; rewrite length_map; reflexivity).
  replace (length (toLowerCase (name b))) with (length (name b))
    by (unfold toLowerCase; rewrite length_map; reflexivity).
  destruct (exactMatch_reflect q a), (exactMatch_reflect q b),
           (startsWithQuery_reflect q a), (startsWithQuery_reflect q b),
           (majorTriad_reflect a), (majorTriad_reflect b);
    cbn [andb negb];
    destruct (Nat.eqb_spec (length (name a)) (length (name b)));
    cbn [negb]; split; intros H; try lia; try tauto; intuition lia.
Qed.

(** An exact match in second position compares above a first entry that
    is not one. *)
Lemma compareChords_second_exact (q : str) (a b : ChordData) :
  str_eqb (toLowerCase (name a)) q = false ->
  str_eqb (toLowerCase (name b)) q = true ->
  compareChords localeCompare q a b = 1.
Proof.
  intros Ha Hb. unfold compareChords. cbv zeta. rewrite Ha, Hb.
  reflexivity.
Qed.

Hypothesis localeCompare_antisym :
  forall a b, 0 < localeCompare a b -> localeCompare b a <= 0.
Hypothesis localeCompare_trans :
  forall a b c,
    localeCompare a b <= 0 -> localeCompare b c <= 0 -> localeCompare a c <= 0.

Lemma compareChords_antisym (q : str) (a b : ChordData) :
  0 < compareChords localeCompare q a b ->
  compareChords localeCompare q b a <= 0.
Proof.
  unfold compareChords. cbv zeta.
  rewrite (Nat.eqb_sym (length (toLowerCase (name b)))).
  destruct (str_eqb (toLowerCase (name a)) q),
           (str_eqb (toLowerCase (name b)) q),
           (startsWith (toLowerCase (name a)) q),
           (startsWith (toLowerCase (name b)) q),
           (isSimple a), (isSimple b);
    cbn [andb negb];
    destruct (Nat.eqb_spec (length (toLowerCase (name a)))
                           (length (toLowerCase (name b))));
    cbn [negb]; try lia; apply localeCompare_antisym.
Qed.

Lemma compareChords_trans (q : str) (a b c : ChordData) :
  compareChords localeCompare q a b <= 0 ->
  compareChords localeCompare q b c <= 0 ->
  compareChords localeCompare q a c <= 0.
Proof.
  unfold compareChords. cbv zeta.
  destruct (str_eqb (toLowerCase (name a)) q),
           (str_eqb (toLowerCase (name b)) q),
           (str_eqb (toLowerCase (name c)) q);
    cbn [andb negb]; try lia;
    (destruct (startsWith (toLowerCase (name a)) q),
              (startsWith (toLowerCase (name b)) q),
              (startsWith (toLowerCase (name c)) q);
     cbn [andb negb]; try lia;
     (destruct (isSimple a), (isSimple b), (isSimple c);
      cbn [andb negb]; try lia;
      (destruct (Nat.eqb_spec (length (toLowerCase (name a)))
                              (length (toLowerCase (name b))));
       destruct (Nat.eqb_spec (length (toLowerCase (name b)))
                              (length (toLowerCase (name c))));
       destruct (Nat.eqb_spec (length (toLowerCase (name a)))
                              (length (toLowerCase (name c))));
       cbn [negb]; try lia; apply localeCompare_trans))).
Qed.

Lemma searchChords_unfold (source : option str) (query : str) (cache : Cache) :
  trim query <> [] ->
  searchChords localeCompare source query cache =
  (firstn 20
     (sortBy (compareChords localeCompare (toLowerCase query))
        (filter (matchesQuery (toLowerCase query))
           (fst (loadChordDatabase source cache)))),
   snd (loadChordDatabase source cache)).
Proof.
  unfold searchChords. destruct (trim query); [congruence|]. intros _.
  destruct (loadChordDatabase source cache). reflexivity.
Qed.

Lemma matchesQuery_iff (q : str) (entry : ChordData) :
  matchesQuery q entry = true <->
  exists pre post, toLowerCase (name entry) = pre ++ q ++ post.
Proof. apply includes_iff. Qed.

Lemma StronglySorted_iff {A} (R R' : A -> A -> Prop) (l : list A) :
  (forall a b, R a b <-> R' a b) ->
  StronglySorted R l -> StronglySorted R' l.
Proof.
  intros HR. induction 1 as [|x l Hs IH Hall]; constructor; [exact IH|].
  eapply Forall_impl; [|exact Hall]. intros y. apply HR.
Qed.

(** Sorting with the comparator of the source orders by the five
    tiers. *)
Lemma ranking_sorted (q : str) (l : list ChordData) :
  StronglySorted (rankedNoLower localeCompare q)
    (sortBy (compareChords localeCompare q) l).
Proof.
  apply (StronglySorted_iff
           (fun a b => compareChords localeCompare q a b <= 0)).
  - intros a b. apply compareChords_ranked.
  - apply sortBy_sorted.
    + apply compareChords_antisym.
    + apply compareChords_trans.
Qed.

(** C4, amended (search contract).  When the trimmed query is empty the
    result is empty and the cache is left as it was, loaded or not.
    Otherwise the result is the first 20 entries of the ranking, where
    the ranking holds exactly the catalog entries whose lowercased name
    contains the lowercased query (each as often as the catalog holds it)
    and is ordered by the five tiers: exact match, name starting with the
    query, major triad, shorter name, collation.  And when the catalog
    holds an entry named C and no other entry whose name is c when case
    is ignored, the search for c returns that entry first. *)
Theorem searchChords_ranked
  (source : option str) (query : str) (cache : Cache) :
  let catalog := fst (loadChordDatabase source cache) in
  let lowerQuery := toLowerCase query in
  let ranking :=
    sortBy (compareChords localeCompare lowerQuery)
      (filter (matchesQuery lowerQuery) catalog) in
  (trim query = [] ->
   searchChords localeCompare source query cache = ([], cache))
  /\ (trim query <> [] ->
      fst (searchChords localeCompare source query cache) = firstn 20 ranking
      /\ (length (fst (searchChords localeCompare source query cache))
          <= 20)%nat)
  /\ Permutation ranking (filter (matchesQuery lowerQuery) catalog)
  /\ (forall entry, In entry ranking <->
        In entry catalog
        /\ exists pre post,
             toLowerCase (name entry) = pre ++ lowerQuery ++ post)
  /\ StronglySorted (rankedNoLower localeCompare lowerQuery) ranking
  /\ (forall entry,
        query = lit "c" ->
        In entry catalog -> name entry = lit "C" ->
        (forall other, In other catalog -> other <> entry ->
                       toLowerCase (name other) <> lit "c") ->
        exists rest,
          fst (searchChords localeCompare source query cache)
          = entry :: rest).
Proof.
  intros catalog lowerQuery ranking.
  assert (Hin : forall entry, In entry ranking <->
            In entry catalog
            /\ exists pre post,
                 toLowerCase (name entry) = pre ++ lowerQuery ++ post).
  { intros entry. unfold ranking.
    rewrite sortBy_In, filter_In, matchesQuery_iff. reflexivity. }
  assert (Hsorted : StronglySorted
            (fun a b => compareChords localeCompare lowerQuery a b <= 0)
            ranking).
  { apply sortBy_sorted.
    - apply compareChords_antisym.
    - apply compareChords_trans. }
  split; [|split; [|split; [|split; [|split]]]].
  - intros Hempty. unfold searchChords. rewrite Hempty. reflexivity.
  - intros Hne. rewrite searchChords_unfold by assumption. cbn [fst].
    split; [reflexivity | apply firstn_le_length].
  - apply sortBy_perm.
  - exact Hin.
  - apply ranking_sorted.
  - intros entry -> Hcat Hname Hothers.
    rewrite searchChords_unfold by (vm_compute; discriminate). cbn [fst].
    fold catalog. fold lowerQuery. fold ranking.
    assert (Hentry : In entry ranking).
    { apply Hin. split; [assumption|]. exists [], []. rewrite Hname.
      reflexivity. }
    destruct ranking as [|first rest] eqn:E; [destruct Hentry|].
    exists (firstn 19 rest). cbn [firstn]. f_equal.
    destruct Hentry as [Heq|Hrest]; [exact Heq|].
    apply StronglySorted_inv in Hsorted. destruct Hsorted as [_ Hall].
    rewrite Forall_forall in Hall. specialize (Hall entry Hrest).
    assert (Hfirst : In first catalog).
    { apply (Hin first). left; reflexivity. }
    destruct (ChordData_eq_dec first entry) as [Heq|Hne]; [exact Heq|].
    exfalso. specialize (Hothers first Hfirst Hne).
    rewrite (compareChords_second_exact lowerQuery first entry) in Hall.
    + lia.
    + destruct (str_eqb (toLowerCase (name first)) lowerQuery) eqn:Ef;
        [|reflexivity].
      apply str_eqb_eq in Ef. contradiction.
    + rewrite Hname. reflexivity.
Qed.

End SearchProperties.

(** C4 as stated fails: in a catalog that holds an entry named c before
    the entry named C, both are exact matches of the query c when case is
    ignored, no tier tells them apart, and the stable sort leaves the
    entry named c first. *)
Lemma search_c_lowercase_name_first :
  let source :=
    Some (csvOf [csvRecord "c" "C,E,G" "Major" "Triad";
                 csvRecord "C" "C,E,G" "Major" "Triad";
                 csvRecord "Cm" "C,Eb,G" "Minor" "Triad"]) in
  map name (fst (loadChordDatabase source None))
  = [lit "c"; lit "C"; lit "Cm"]
  /\ map name (fst (searchChords codeCompare source (lit "c") None))
     = [lit "c"; lit "C"; lit "Cm"]
  /\ hd_error (map name (fst (searchChords codeCompare source (lit "c") None)))
     <> Some (lit "C").
Proof.
  split; [vm_compute; reflexivity|].
  split; [vm_compute; reflexivity|].
  vm_compute. discriminate.
Qed.

Lemma searchChords_ranked_witness :
  let source :=
    Some (csvOf [csvRecord "Cm" "C,Eb,G" "Minor" "Triad";
                 csvRecord "C7" "C,E,G,Bb" "Major" "7th";
                 csvRecord "C" "C,E,G" "Major" "Triad"]) in
  (length (fst (searchChords codeCompare source (lit "c") None)) <= 20)%nat
  /\ exists rest,
       fst (searchChords codeCompare source (lit "c") None)
       = mkChord (lit "C") (map lit ["C"; "E"; "G"]%string) [60; 64; 67]
           (lit "Major") (lit "Triad") :: rest.
Proof.
  intros source.
  pose proof (searchChords_ranked codeCompare codeCompare_antisym
                codeCompare_trans source (lit "c") None)
    as [_ [Hres [_ [_ [_ Hfirst]]]]].
  split.
  - apply Hres. vm_compute. discriminate.
  - apply Hfirst.
    + reflexivity.
    + vm_compute. tauto.
    + reflexivity.
    + intros other Hin Hne.
      vm_compute in Hin. destruct Hin as [<-|[<-|[<-|[]]]].
      * vm_compute. discriminate.
      * vm_compute. discriminate.
      * exfalso. apply Hne. reflexivity.
Defined.

(** The search for c in a small catalog: the exact match first, then the
    names that start with c (the major triad first, then the shorter
    name), then the other names that contain c. *)
Example search_c_ranking :
  let source :=
    Some (csvOf [csvRecord "F/C" "C,F,A" "Major" "Triad";
                 csvRecord "Cmaj7" "C,E,G,B" "Major" "7th";
                 csvRecord "Cm" "C,Eb,G" "Minor" "Triad";
                 csvRecord "D" "D,F#,A" "Major" "Triad";
                 csvRecord "C7" "C,E,G,Bb" "Major" "7th";
                 csvRecord "C" "C,E,G" "Major" "Triad";
                 csvRecord "C/E" "E,G,C" "Major" "Triad"]) in
  map name (fst (searchChords codeCompare source (lit "c") None))
  = map lit ["C"; "C/E"; "C7"; "Cm"; "Cmaj7"; "F/C"]%string.
Proof. vm_compute. reflexivity. Qed.

(** An empty or blank query returns nothing and leaves an unloaded cache
    unloaded: the catalog is not read. *)
Example search_blank_query :
  let source := Some (csvOf [csvRecord "C" "C,E,G" "Major" "Triad"]) in
  searchChords codeCompare source (lit "") None = ([], None)
  /\ searchChords codeCompare source (lit "   ") None = ([], None).
Proof. split; reflexivity. Qed.

Section UntrimmedQuery.

Variable localeCompare : str -> str -> Z.
Hypothesis localeCompare_antisym :
  forall a b, 0 < localeCompare a b -> localeCompare b a <= 0.
Hypothesis localeCompare_trans :
  forall a b c,
    localeCompare a b <= 0 -> localeCompare b c <= 0 -> localeCompare a c <= 0.

(** C10 (the query is not trimmed before matching).  For a query that is
    not empty after trimming, the search selects and ranks with the query
    as given, only lowercased: the result is the first 20 entries of a
    ranking that holds the catalog entries whose lowercased name contains
    the lowercased untrimmed query, surrounding white space included, and
    that is ordered by the five tiers taken at that same untrimmed query
    (exact match with it, name starting with it, major triad, shorter
    name, collation); so every entry returned has a name that contains
    the untrimmed query when case is ignored. *)
Theorem searchChords_untrimmed_query
  (source : option str) (query : str) (cache : Cache) (entry : ChordData) :
  trim query <> [] ->
  let catalog := fst (loadChordDatabase source cache) in
  let ranking :=
    sortBy (compareChords localeCompare (toLowerCase query))
      (filter (matchesQuery (toLowerCase query)) catalog) in
  fst (searchChords localeCompare source query cache) = firstn 20 ranking
  /\ (forall e, In e ranking <->
        In e catalog
        /\ exists pre post,
             toLowerCase (name e) = pre ++ toLowerCase query ++ post)
  /\ StronglySorted (rankedNoLower localeCompare (toLowerCase query)) ranking
  /\ (In entry (fst (searchChords localeCompare source query cache)) ->
      In entry catalog
      /\ exists pre post,
           toLowerCase (name entry) = pre ++ toLowerCase query ++ post).
Proof.
  intros Hne catalog ranking.
  assert (Hin : forall e, In e ranking <->
            In e catalog
            /\ exists pre post,
                 toLowerCase (name e) = pre ++ toLowerCase query ++ post).
  { intros e. unfold ranking.
    rewrite sortBy_In, filter_In, matchesQuery_iff. reflexivity. }
  rewrite searchChords_unfold by assumption. cbn [fst].
  split; [reflexivity|]. split; [exact Hin|].
  split; [apply ranking_sorted; assumption|].
  intros He. apply In_firstn in He. apply Hin, He.
Qed.

End UntrimmedQuery.

Lemma searchChords_untrimmed_query_witness :
  let source :=
    Some (csvOf [csvRecord "C" "C,E,G" "Major" "Triad";
                 csvRecord "G over C" "C,G,B,D" "Major" "Slash"]) in
  let entry := mkChord (lit "G over C") (map lit ["C"; "G"; "B"; "D"]%string)
                 [60; 67; 71; 74] (lit "Major") (lit "Slash") in
  fst (searchChords codeCompare source (lit " c") None) = [entry]
  /\ In entry (fst (loadChordDatabase source None))
  /\ exists pre post,
       toLowerCase (name entry) = pre ++ toLowerCase (lit " c") ++ post.
Proof.
  intros source entry.
  split; [vm_compute; reflexivity|].
  refine (proj2 (proj2 (proj2
            (searchChords_untrimmed_query codeCompare codeCompare_antisym
               codeCompare_trans source (lit " c") None entry _))) _).
  - vm_compute. discriminate.
  - vm_compute. left. reflexivity.
Defined.

(** The query of a space and c finds only the name that contains a space
    before a c, while the query c finds every name that contains c. *)
Example search_untrimmed_query :
  let source :=
    Some (csvOf [csvRecord "C" "C,E,G" "Major" "Triad";
                 csvRecord "Cm" "C,Eb,G" "Minor" "Triad";
                 csvRecord "G over C" "C,G,B,D" "Major" "Slash"]) in
  map name (fst (searchChords codeCompare source (lit " c") None))
  = [lit "G over C"]
  /\ map name (fst (searchChords codeCompare source (lit "c") None))
     = map lit ["C"; "Cm"; "G over C"]%string.
Proof. vm_compute. split; reflexivity. Qed.

(** ** The two voicing generators *)

(** C9 as stated fails: the pitches of the B major triad are ascending,
    and its second inversion is shifted down an octave by the
    order-preserving generator only. *)
Lemma variants_differ_on_ascending :
  let chord := mkChord (lit "B") (map lit ["B"; "D#"; "F#"]%string)
                 [71; 75; 78] (lit "Major") (lit "Triad") in
  strictlyIncreasing (midiNotes chord)
  /\ map vnotes (calculateVoicings chord)
     = [[71; 75; 78]; [75; 78; 83]; [66; 71; 75]]
  /\ map vnotes (SortBased.calculateVoicings chord)
     = [[71; 75; 78]; [75; 78; 83]; [78; 83; 87]]
  /\ calculateVoicings chord <> SortBased.calculateVoicings chord.
Proof.
  split; [repeat constructor|].
  split; [reflexivity|]. split; [reflexivity|].
  vm_compute. discriminate.
Qed.

(** An ascending entry of four notes or more has four voicings from the
    order-preserving generator and three from the sort-based one. *)
Lemma variants_differ_four_notes (chord : ChordData) :
  (4 <= length (midiNotes chord))%nat ->
  length (calculateVoicings chord) = 4%nat
  /\ length (SortBased.calculateVoicings chord) = 3%nat.
Proof.
  intros Hn. split.
  - rewrite calculateVoicings_unfold
      by (destruct (midiNotes chord); [simpl in Hn; lia | discriminate]).
    cbn [length]. rewrite length_map, length_seq. lia.
  - unfold SortBased.calculateVoicings.
    destruct (midiNotes chord) as [|x l] eqn:E; [simpl in Hn; lia|].
    cbv zeta. rewrite sortBy_length.
    destruct (Nat.ltb_spec 1 (length (x :: l))); [|lia].
    destruct (Nat.ltb_spec 2 (length (x :: l))); [|lia].
    reflexivity.
Qed.

(** C9, amended (agreement of the two generators).  For an entry whose
    pitches are strictly ascending, at most three in number, all less
    than an octave above the lowest, and all except possibly the last at
    most 71 (so that no inversion reaches above 83), the order-preserving
    and the sort-based generator return the same voicings. *)
Theorem calculateVoicings_variants_agree (chord : ChordData) :
  strictlyIncreasing (midiNotes chord) ->
  (length (midiNotes chord) <= 3)%nat ->
  (forall p, In p (midiNotes chord) -> p < hd 0 (midiNotes chord) + 12) ->
  (forall p, In p (removelast (midiNotes chord)) -> p <= 71) ->
  calculateVoicings chord = SortBased.calculateVoicings chord.
Proof.
  unfold calculateVoicings, SortBased.calculateVoicings.
  destruct (midiNotes chord) as [|a [|b [|c [|d l]]]];
    intros Hs Hn Hoct Hlow.
  - reflexivity.
  - reflexivity.
  - assert (a < b) by (inversion Hs as [|? ? _ Hhd]; inversion Hhd; auto).
    assert (b < a + 12) by (apply Hoct; simpl; auto).
    assert (a <= 71) by (apply Hlow; simpl; auto).
    cbv zeta.
    unfold inversion, sortedInversion, raiseFirst, rotate, normalize,
      addOctave, maxOf, sortBy, SortBased.numeric, KEYBOARD_MAX.
    cbn [length Nat.min Nat.sub seq map fold_left fold_right nth_error
         firstn skipn app ascend insertBy Nat.ltb Nat.leb].
    rewrite !raiseAbove_id by lia.
    repeat (decide_order;
            cbn [length fold_right nth_error firstn skipn app insertBy
                 Nat.ltb Nat.leb]).
    reflexivity.
  - assert (a < b /\ b < c) as [Hab Hbc].
    { inversion Hs as [|? ? Hs' Hhd]; inversion Hhd; subst.
      inversion Hs' as [|? ? _ Hhd']; inversion Hhd'; auto. }
    assert (c < a + 12) by (apply Hoct; simpl; auto).
    assert (b <= 71) by (apply Hlow; simpl; auto).
    cbv zeta.
    unfold inversion, sortedInversion, raiseFirst, rotate, normalize,
      addOctave, maxOf, sortBy, SortBased.numeric, KEYBOARD_MAX.
    cbn [length Nat.min Nat.sub seq map fold_left fold_right nth_error
         firstn skipn app ascend insertBy Nat.ltb Nat.leb].
    rewrite !raiseAbove_id by lia.
    repeat (decide_order;
            cbn [length fold_right nth_error firstn skipn app insertBy
                 Nat.ltb Nat.leb]).
    reflexivity.
  - simpl in Hn. lia.
Qed.

Lemma calculateVoicings_variants_agree_witness :
  calculateVoicings
    (mkChord (lit "C") (map lit ["C"; "E"; "G"]%string) [60; 64; 67]
       (lit "Major") (lit "Triad"))
  = SortBased.calculateVoicings
      (mkChord (lit "C") (map lit ["C"; "E"; "G"]%string) [60; 64; 67]
         (lit "Major") (lit "Triad")).
Proof.
  apply (calculateVoicings_variants_agree
           (mkChord (lit "C") (map lit ["C"; "E"; "G"]%string) [60; 64; 67]
              (lit "Major") (lit "Triad"))).
  - repeat constructor.
  - simpl. lia.
  - simpl. intros p [<-|[<-|[<-|[]]]]; lia.
  - simpl. intros p [<-|[<-|[]]]; lia.
Defined.

(* ------------------------------------------------------------------ *)
(** * Further properties of the code *)

(** ** Trimming and lowercasing *)

Lemma dropWhile_idem {A} (p : A -> bool) (l : list A) :
  dropWhile p (dropWhile p l) = dropWhile p l.
Proof.
  induction l as [|x l IH]; simpl; [reflexivity|].
  destruct (p x) eqn:E; [exact IH|]. simpl. rewrite E. reflexivity.
Qed.

Lemma dropWhile_head {A} (p : A -> bool) (l : list A) :
  match dropWhile p l with [] => True | x :: _ => p x = false end.
Proof.
  induction l as [|x l IH]; simpl; [exact I|].
  destruct (p x) eqn:E; [exact IH | exact E].
Qed.

Lemma dropWhile_snoc {A} (p : A -> bool) (l : list A) (x : A) :
  p x = false -> dropWhile p (l ++ [x]) = dropWhile p l ++ [x].
Proof.
  intros Hx. induction l as [|y l IH]; simpl.
  - rewrite Hx. reflexivity.
  - destruct (p y); [exact IH | reflexivity].
Qed.

Lemma dropWhile_map {A} (p : A -> bool) (f : A -> A) (l : list A) :
  (forall x, p (f x) = p x) ->
  dropWhile p (map f l) = map f (dropWhile p l).
Proof.
  intros Hp. induction l as [|x l IH]; simpl; [reflexivity|].
  rewrite Hp. destruct (p x); [exact IH | reflexivity].
Qed.

(** Trimming a trimmed string changes nothing. *)
Lemma trim_idempotent (s : str) : trim (trim s) = trim s.
Proof.
  unfold trim, trimStart.
  pose proof (dropWhile_head isSpace s) as Hhd.
  destruct (dropWhile isSpace s) as [|x t]; [reflexivity|].
  assert (Hend : forall u, trimEnd (x :: u)
                           = x :: rev (dropWhile isSpace (rev u))).
  { intros u. unfold trimEnd. cbn [rev].
    rewrite dropWhile_snoc by exact Hhd.
    rewrite rev_app_distr. reflexivity. }
  rewrite Hend. cbn [dropWhile]. rewrite Hhd, Hend.
  rewrite rev_involutive, dropWhile_idem. reflexivity.
Qed.

Lemma lowerChar_idempotent (c : ascii) : lowerChar (lowerChar c) = lowerChar c.
Proof. destruct c as [[] [] [] [] [] [] [] []]; reflexivity. Qed.

Lemma isSpace_lowerChar (c : ascii) : isSpace (lowerChar c) = isSpace c.
Proof. destruct c as [[] [] [] [] [] [] [] []]; reflexivity. Qed.

Lemma toLowerCase_idempotent (s : str) :
  toLowerCase (toLowerCase s) = toLowerCase s.
Proof.
  unfold toLowerCase. rewrite map_map. apply map_ext.
  intros c. apply lowerChar_idempotent.
Qed.

Lemma trim_toLowerCase (s : str) :
  trim (toLowerCase s) = toLowerCase (trim s).
Proof.
  unfold trim, trimEnd, trimStart, toLowerCase.
  rewrite dropWhile_map by apply isSpace_lowerChar.
  rewrite <- map_rev, dropWhile_map by apply isSpace_lowerChar.
  rewrite map_rev. reflexivity.
Qed.

(** ** The pitch mapper on known and unknown labels *)

Lemma lookup_None (key : str) (m : list (str * Z)) :
  lookup key m = None -> forall v, ~ In (key, v) m.
Proof.
  induction m as [|[k w] m IH]; simpl; [intros _ v []|].
  destruct (str_eqb key k) eqn:E; [discriminate|].
  intros H v [Heq|Hin].
  - injection Heq as <- _. rewrite str_eqb_refl in E. discriminate.
  - exact (IH H v Hin).
Qed.

(** X1.  The three outcomes of [noteToMidi] on a label, by what the
    trimmed label is: a key of the note table gives the number 60 plus
    its table value (a pitch from 60 to 71) and no warning; a name of an
    inherited member gives no number and no warning; any other label
    gives the number 60 and one warning that names the trimmed label. *)
Theorem noteToMidi_known_or_default (noteName : str) :
  (exists pc, In (trim noteName, pc) noteMap
              /\ 0 <= pc <= 11
              /\ noteToMidi_isNumber noteName = true
              /\ noteToMidi noteName = 60 + pc
              /\ noteToMidi_warn noteName = [])
  \/ ((forall pc, ~ In (trim noteName, pc) noteMap)
      /\ In (trim noteName) objectPrototypeMembers
      /\ noteToMidi_isNumber noteName = false
      /\ noteToMidi_warn noteName = [])
  \/ ((forall pc, ~ In (trim noteName, pc) noteMap)
      /\ ~ In (trim noteName) objectPrototypeMembers
      /\ noteToMidi_isNumber noteName = true
      /\ noteToMidi noteName = 60
      /\ noteToMidi_warn noteName
         = [lit "Unknown note: " ++ trim noteName]).
Proof.
  unfold noteToMidi, noteToMidi_warn, noteToMidi_isNumber, getProperty.
  cbv zeta.
  destruct (lookup (trim noteName) noteMap) as [pc|] eqn:E.
  - left. exists pc. pose proof (lookup_In _ _ _ E) as Hin.
    split; [exact Hin|]. split; [apply (noteMap_range _ _ Hin)|].
    split; [reflexivity|]. split; [lia | reflexivity].
  - right. destruct (inheritedMember (trim noteName)) eqn:Ei.
    + left. split; [apply lookup_None, E|]. split; [|split; reflexivity].
      unfold inheritedMember in Ei. apply existsb_exists in Ei.
      destruct Ei as [m [Hm Heq]]. apply str_eqb_eq in Heq. subst.
      exact Hm.
    + right. split; [apply lookup_None, E|]. split; [|repeat split].
      intros Hin. unfold inheritedMember in Ei.
      assert (Ht : existsb (str_eqb (trim noteName)) objectPrototypeMembers
                   = true).
      { apply existsb_exists. exists (trim noteName).
        split; [exact Hin | apply str_eqb_refl]. }
      congruence.
Qed.

(** ** Pitch assignment: what raising keeps *)

Lemma convertChordNotesToMidi_sorted (labels : list str) :
  strictlyIncreasing (convertChordNotesToMidi labels).
Proof.
  destruct labels as [|first others]; [constructor|]. apply ascend_sorted.
Qed.

(** X2.  For labels none of which names an inherited member, raising
    never changes a note: the pitch assigned to each label has the pitch
    class of the label's mapped pitch.  And it raises no more than
    needed: each assigned pitch is above the one before it by at most
    12. *)
Theorem convertChordNotesToMidi_classes_gaps (labels : list str) :
  numberLabels labels ->
  pitchClasses (convertChordNotesToMidi labels)
  = pitchClasses (map noteToMidi labels)
  /\ (forall i a b,
        nth_error (convertChordNotesToMidi labels) i = Some a ->
        nth_error (convertChordNotesToMidi labels) (S i) = Some b ->
        a < b <= a + 12).
Proof.
  intros _. split.
  - destruct labels as [|first others]; [reflexivity|].
    cbn [convertChordNotesToMidi map]. cbv zeta.
    change (pitchClasses (?x :: ?l)) with (x mod 12 :: pitchClasses l).
    rewrite ascend_pitchClasses. reflexivity.
  - intros i a b Ha Hb.
    pose proof (convertChordNotesToMidi_bounds _ _ _ Ha) as Hlo.
    destruct labels as [|first others]; [destruct i; discriminate|].
    cbn [convertChordNotesToMidi] in Ha, Hb. cbv zeta in Ha, Hb.
    cbn [nth_error] in Hb.
    assert (Hi : (i < length (map noteToMidi others))%nat).
    { rewrite <- (ascend_length _ (noteToMidi first)).
      apply nth_error_Some. congruence. }
    destruct (nth_error (map noteToMidi others) i) as [x|] eqn:Ex;
      [|apply nth_error_None in Ex; lia].
    assert (Hx : 60 <= x <= 71).
    { apply nth_error_In, in_map_iff in Ex. destruct Ex as [l [<- _]].
      apply noteToMidi_range. }
    rewrite (ascend_nth _ _ _ _ _ Ex Ha) in Hb. injection Hb as <-.
    pose proof (raiseAbove_gt a x). pose proof (raiseAbove_upper a x). lia.
Qed.

Lemma convertChordNotesToMidi_classes_gaps_witness :
  65 < 68 <= 65 + 12.
Proof.
  refine (proj2 (convertChordNotesToMidi_classes_gaps
                   (map lit ["F"; "G#"; "C"; "D"]%string) _)
            0%nat 65 68 _ _).
  - repeat constructor.
  - reflexivity.
  - reflexivity.
Defined.

(** X3.  For labels none of which names an inherited member, the
    pitches assigned with raising are the plainly mapped pitches exactly
    when the mapped pitches are already strictly increasing; this is when
    the parsers of the two files assign a label list the same pitches. *)
Theorem convertChordNotesToMidi_plain_iff (labels : list str) :
  numberLabels labels ->
  (convertChordNotesToMidi labels = map noteToMidi labels
   <-> strictlyIncreasing (map noteToMidi labels)).
Proof.
  intros _. split.
  - intros <-. apply convertChordNotesToMidi_sorted.
  - destruct labels as [|first others]; [reflexivity|].
    cbn [convertChordNotesToMidi map]. cbv zeta. intros Hs.
    f_equal. apply ascend_id, Hs.
Qed.

Lemma convertChordNotesToMidi_plain_iff_witness :
  convertChordNotesToMidi (map lit ["C"; "E"; "G"]%string)
  = map noteToMidi (map lit ["C"; "E"; "G"]%string)
  <-> strictlyIncreasing (map noteToMidi (map lit ["C"; "E"; "G"]%string)).
Proof.
  apply (convertChordNotesToMidi_plain_iff (map lit ["C"; "E"; "G"]%string)).
  repeat constructor.
Defined.

(** ** The parser: header, fields and entries *)

Lemma split_no_separator (sep : ascii) (s : str) :
  ~ In sep s -> split sep s = [s].
Proof.
  induction s as [|c s IH]; simpl; [reflexivity|]. intros Hn.
  destruct (Ascii.eqb c sep) eqn:E.
  - apply Ascii.eqb_eq in E. subst. exfalso. apply Hn. left; reflexivity.
  - rewrite IH by (intros H; apply Hn; right; exact H). reflexivity.
Qed.

(** X4.  The first line of the text is dropped whatever it holds: a text
    that is a single line after trimming yields no entry and no warning,
    also when that line is a well-formed record. *)
Theorem parseCsv_single_line (csvText : str) :
  ~ In newline (trim csvText) -> parseCsv csvText = ([], []).
Proof.
  intros Hn. unfold parseCsv. rewrite split_no_separator by exact Hn.
  reflexivity.
Qed.

Lemma parseCsv_single_line_witness :
  parseCsv (csvRecord "C" "C,E,G" "Major" "Triad") = ([], []).
Proof.
  apply (parseCsv_single_line (csvRecord "C" "C,E,G" "Major" "Triad")).
  vm_compute. intuition discriminate.
Defined.

(** Every parsed entry comes from a line that matched, and is built from
    the four groups of the match. *)
Lemma parseLines_entry_groups (lines : list str) (entry : ChordData) :
  In entry (fst (parseLines lines)) ->
  exists raw n ns t e,
    In raw lines /\ matchLine (trim raw) = Some (n, ns, t, e)
    /\ entry = mkChord (trim n) (map trim (split comma ns))
                 (convertChordNotesToMidi (map trim (split comma ns)))
                 (trim t) (trim e).
Proof.
  induction lines as [|raw lines IH]; [intros []|].
  rewrite parseLines_cons. cbn [fst]. rewrite in_app_iff.
  intros [Hin|Hin].
  - destruct (parseLine_cases raw)
      as [[_ E]|[[_ [_ E]]|[n [ns [t [e [_ [Hm E]]]]]]]];
      rewrite E in Hin; cbn [fst] in Hin; try destruct Hin as [<-|[]];
      try destruct Hin.
    exists raw, n, ns, t, e. split; [left; reflexivity|]. split; auto.
  - destruct (IH Hin) as [raw' [n [ns [t [e [Hr H]]]]]].
    exists raw', n, ns, t, e. split; [right; exact Hr | exact H].
Qed.

Lemma parseChordData_entry_groups (source : option str) (entry : ChordData) :
  In entry (fst (parseChordData source)) ->
  exists n ns t e,
    entry = mkChord (trim n) (map trim (split comma ns))
              (convertChordNotesToMidi (map trim (split comma ns)))
              (trim t) (trim e).
Proof.
  destruct source as [csvText|]; [|intros []].
  intros Hin. apply parseLines_entry_groups in Hin.
  destruct Hin as [_ [n [ns [t [e [_ [_ H]]]]]]]. exists n, ns, t, e. exact H.
Qed.

(** X5.  Every entry of a parsed catalog whose note labels name no
    inherited member has at least one note label, one pitch per label,
    the pitches assigned to its labels, and these are strictly increasing
    and start between 60 and 71. *)
Theorem parsed_entry_well_formed (source : option str) (entry : ChordData) :
  In entry (fst (parseChordData source)) ->
  numberLabels (notes entry) ->
  notes entry <> []
  /\ midiNotes entry = convertChordNotesToMidi (notes entry)
  /\ length (midiNotes entry) = length (notes entry)
  /\ strictlyIncreasing (midiNotes entry)
  /\ (exists root rest, midiNotes entry = root :: rest /\ 60 <= root <= 71).
Proof.
  intros Hin _. apply parseChordData_entry in Hin. destruct Hin as [Hne Hm].
  split; [exact Hne|]. split; [exact Hm|]. rewrite Hm.
  split; [apply convertChordNotesToMidi_length|].
  split; [apply convertChordNotesToMidi_sorted|].
  destruct (notes entry) as [|first others]; [congruence|].
  eexists _, _. split; [reflexivity | apply noteToMidi_range].
Qed.

Lemma parsed_entry_well_formed_witness :
  strictlyIncreasing [65; 68; 72; 74].
Proof.
  apply (parsed_entry_well_formed
           (Some (csvOf [csvRecord "Fm6" "F,G#,C,D" "Minor" "6th"]))
           (mkChord (lit "Fm6") (map lit ["F"; "G#"; "C"; "D"]%string)
              [65; 68; 72; 74] (lit "Minor") (lit "6th"))).
  - vm_compute. left. reflexivity.
  - repeat constructor.
Defined.

(** X6.  The fields of a parsed entry carry no surrounding white space:
    the name, the type, the extension and every note label are left
    unchanged by trimming. *)
Theorem parsed_entry_fields_trimmed (source : option str) (entry : ChordData) :
  In entry (fst (parseChordData source)) ->
  trim (name entry) = name entry
  /\ trim (type entry) = type entry
  /\ trim (extension entry) = extension entry
  /\ Forall (fun label => trim label = label) (notes entry).
Proof.
  intros Hin. apply parseChordData_entry_groups in Hin.
  destruct Hin as [n [ns [t [e ->]]]]. cbn [name type extension notes].
  rewrite !trim_idempotent. repeat split.
  apply Forall_forall. intros label Hl. apply in_map_iff in Hl.
  destruct Hl as [l [<- _]]. apply trim_idempotent.
Qed.

Lemma parsed_entry_fields_trimmed_witness :
  trim (lit "Fm6") = lit "Fm6".
Proof.
  apply (parsed_entry_fields_trimmed
           (Some (csvOf [lit "  Fm6 ," ++ dquote :: lit " F, G#,C ,D"
                           ++ dquote :: lit ", Minor , 6th  "]))
           (mkChord (lit "Fm6") (map lit ["F"; "G#"; "C"; "D"]%string)
              [65; 68; 72; 74] (lit "Minor") (lit "6th"))).
  vm_compute. left. reflexivity.
Defined.

(** ** The cache *)

(** X7.  Loading is memoized: once a load has filled the cache, a later
    load returns the same catalog and cache whatever source it is given,
    so the source is read at most once. *)
Theorem loadChordDatabase_memoized
  (source source' : option str) (cache : Cache) :
  loadChordDatabase source' (snd (loadChordDatabase source cache))
  = loadChordDatabase source cache
  /\ snd (loadChordDatabase source cache)
     = Some (fst (loadChordDatabase source cache)).
Proof.
  unfold loadChordDatabase.
  destruct cache as [db|]; split; cbv zeta;
    cbn [fst snd]; reflexivity.
Qed.

(** ** The search and the cache *)

Section SearchAndCache.

Variable localeCompare : str -> str -> Z.

(** X8.  A failed load is cached like any other: after a search with a
    non-blank query whose load failed, the cache holds the empty catalog,
    and every later load and search returns nothing, whatever source it
    is given. *)
Theorem failed_load_is_cached (query query' : str) (source' : option str) :
  trim query <> [] ->
  snd (searchChords localeCompare None query None) = Some []
  /\ fst (loadChordDatabase source'
            (snd (searchChords localeCompare None query None))) = []
  /\ fst (searchChords localeCompare source' query'
            (snd (searchChords localeCompare None query None))) = [].
Proof.
  intros Hne.
  assert (Hc : snd (searchChords localeCompare None query None) = Some []).
  { rewrite searchChords_unfold by exact Hne. reflexivity. }
  rewrite Hc. split; [reflexivity|]. split; [reflexivity|].
  unfold searchChords. destruct (trim query'); reflexivity.
Qed.

(** X9.  The search does not depend on the case of the query: a query
    and its lowercase form give the same result and cache. *)
Theorem searchChords_query_case
  (source : option str) (query : str) (cache : Cache) :
  searchChords localeCompare source (toLowerCase query) cache
  = searchChords localeCompare source query cache.
Proof.
  unfold searchChords. rewrite trim_toLowerCase, toLowerCase_idempotent.
  destruct (trim query); reflexivity.
Qed.

(** X10.  With a loaded cache the search does not read the source and
    leaves the cache as it is, and every entry it returns is an entry of
    the cached catalog. *)
Theorem searchChords_loaded_cache
  (source source' : option str) (query : str) (db : list ChordData) :
  searchChords localeCompare source query (Some db)
  = searchChords localeCompare source' query (Some db)
  /\ snd (searchChords localeCompare source query (Some db)) = Some db
  /\ (forall entry,
        In entry (fst (searchChords localeCompare source query (Some db))) ->
        In entry db).
Proof.
  unfold searchChords. destruct (trim query) as [|c t].
  - repeat split. intros entry [].
  - cbn [loadChordDatabase fst snd]. repeat split.
    intros entry Hin.
    apply In_firstn, sortBy_In, filter_In in Hin. tauto.
Qed.

Hypothesis localeCompare_antisym :
  forall a b, 0 < localeCompare a b -> localeCompare b a <= 0.
Hypothesis localeCompare_trans :
  forall a b c,
    localeCompare a b <= 0 -> localeCompare b c <= 0 -> localeCompare a c <= 0.

(** X11.  For a non-blank query of any kind, when the catalog holds an
    entry whose lowercased name is the lowercased query, the first result
    is such an entry: exact matches are never ranked below other
    matches. *)
Theorem searchChords_exact_match_first
  (source : option str) (query : str) (cache : Cache) (exact : ChordData) :
  trim query <> [] ->
  In exact (fst (loadChordDatabase source cache)) ->
  toLowerCase (name exact) = toLowerCase query ->
  exists first rest,
    fst (searchChords localeCompare source query cache) = first :: rest
    /\ toLowerCase (name first) = toLowerCase query.
Proof.
  intros Hne Hin Hname.
  rewrite searchChords_unfold by exact Hne. cbn [fst].
  set (q := toLowerCase query) in *.
  set (catalog := fst (loadChordDatabase source cache)) in *.
  pose proof (sortBy_sorted (compareChords localeCompare q)
                (compareChords_antisym localeCompare localeCompare_antisym q)
                (compareChords_trans localeCompare localeCompare_trans q)
                (filter (matchesQuery q) catalog)) as Hsorted.
  assert (Hex : In exact (sortBy (compareChords localeCompare q)
                            (filter (matchesQuery q) catalog))).
  { apply sortBy_In, filter_In. split; [exact Hin|].
    apply matchesQuery_iff. exists [], []. rewrite Hname, app_nil_r.
    reflexivity. }
  destruct (sortBy (compareChords localeCompare q)
              (filter (matchesQuery q) catalog)) as [|first rest];
    [destruct Hex|].
  exists first, (firstn 19 rest). split; [reflexivity|].
  destruct Hex as [->|Hrest]; [exact Hname|].
  apply StronglySorted_inv in Hsorted. destruct Hsorted as [_ Hall].
  rewrite Forall_forall in Hall. specialize (Hall exact Hrest).
  destruct (str_eqb (toLowerCase (name first)) q) eqn:E;
    [apply str_eqb_eq, E|].
  rewrite (compareChords_second_exact localeCompare q first exact) in Hall.
  - lia.
  - exact E.
  - rewrite Hname. apply str_eqb_refl.
Qed.

End SearchAndCache.

Lemma failed_load_is_cached_witness :
  fst (searchChords codeCompare
         (Some (csvOf [csvRecord "C" "C,E,G" "Major" "Triad"])) (lit "c")
         (snd (searchChords codeCompare None (lit "c") None))) = [].
Proof.
  apply (failed_load_is_cached codeCompare (lit "c") (lit "c")
           (Some (csvOf [csvRecord "C" "C,E,G" "Major" "Triad"]))).
  vm_compute. discriminate.
Defined.

Lemma searchChords_exact_match_first_witness :
  exists first rest,
    fst (searchChords codeCompare
           (Some (csvOf [csvRecord "Cm7" "C,Eb,G,Bb" "Minor" "7th";
                         csvRecord "Cm" "C,Eb,G" "Minor" "Triad"]))
           (lit "cM") None) = first :: rest
    /\ toLowerCase (name first) = toLowerCase (lit "cM").
Proof.
  refine (searchChords_exact_match_first codeCompare
            codeCompare_antisym codeCompare_trans
            (Some (csvOf [csvRecord "Cm7" "C,Eb,G,Bb" "Minor" "7th";
                          csvRecord "Cm" "C,Eb,G" "Minor" "Triad"]))
            (lit "cM") None
            (mkChord (lit "Cm") (map lit ["C"; "Eb"; "G"]%string)
               [60; 63; 67] (lit "Minor") (lit "Triad")) _ _ _).
  - vm_compute. discriminate.
  - vm_compute. tauto.
  - reflexivity.
Defined.

(** ** Voicings: labels, bass notes, close position *)

Lemma addOctave_nil (i : nat) : addOctave i [] = [].
Proof. unfold addOctave. destruct i; reflexivity. Qed.

Lemma addOctave_0 (x : Z) (l : list Z) : addOctave 0 (x :: l) = (x + 12) :: l.
Proof. reflexivity. Qed.

Lemma addOctave_S (i : nat) (x : Z) (l : list Z) :
  addOctave (S i) (x :: l) = x :: addOctave i l.
Proof.
  unfold addOctave. cbn [nth_error].
  destruct (nth_error l i); reflexivity.
Qed.

(** X12.  The voicings are labelled in order Root, 1st Inv, 2nd Inv,
    3rd Inv, as many as the entry has pitches and at most four; an entry
    without pitches has no voicing. *)
Theorem calculateVoicings_labels (chord : ChordData) :
  map vname (calculateVoicings chord)
  = firstn (length (midiNotes chord))
      [lit "Root"; lit "1st Inv"; lit "2nd Inv"; lit "3rd Inv"]
  /\ (calculateVoicings chord = [] <-> midiNotes chord = []).
Proof.
  unfold calculateVoicings.
  destruct (midiNotes chord) as [|a [|b [|c [|d l]]]]; cbv zeta;
    cbn [length Nat.min Nat.sub seq map firstn vname];
    rewrite ?inversion_name, ?Nat.min_0_r, ?firstn_nil;
    split; try reflexivity; try tauto;
    split; intros H; discriminate H.
Qed.

Lemma sortedInversion_head (rootNotes : list Z) (inv : nat) (p : Z) :
  nth_error rootNotes inv = Some p ->
  exists rest, sortedInversion rootNotes inv = p :: rest.
Proof.
  intros Hp.
  assert (Hlen : (inv < length rootNotes)%nat)
    by (apply nth_error_Some; congruence).
  unfold sortedInversion. rewrite rotate_raiseFirst by lia.
  assert (Hsk : exists t, skipn inv rootNotes = p :: t).
  { clear Hlen. revert rootNotes Hp.
    induction inv as [|inv IH]; intros [|x l] Hp; try discriminate.
    - injection Hp as ->. exists l. reflexivity.
    - apply (IH l Hp). }
  destruct Hsk as [t ->]. cbn [app normalize]. eexists. reflexivity.
Qed.



Lemma inversion_invariants (rootNotes : list Z) (inv : nat) :
  (inv <= length rootNotes)%nat ->
  length (vnotes (inversion rootNotes inv)) = length rootNotes
  /\ strictlyIncreasing (vnotes (inversion rootNotes inv))
  /\ Permutation (pitchClasses (vnotes (inversion rootNotes inv)))
                 (pitchClasses rootNotes).
Proof.
  intros Hle. rewrite inversion_notes.
  pose proof (sortedInversion_length _ _ Hle) as Hlen.
  pose proof (sortedInversion_pitchClasses _ _ Hle) as Hpc.
  pose proof (normalize_sorted (rotate inv (raiseFirst inv rootNotes)))
    as Hso.
  fold (sortedInversion rootNotes inv) in Hso.
  destruct (maxOf (sortedInversion rootNotes inv) >? KEYBOARD_MAX).
  - split; [rewrite length_map; exact Hlen|]. split.
    + apply (shift_sorted (-12)), Hso.
    + rewrite <- Hpc. apply Permutation_refl'.
      apply (shift_pitchClasses (-1)).
  - auto.
Qed.

Lemma sorted_above_head (x : Z) (l : list Z) :
  Sorted Z.lt (x :: l) -> forall y, In y (x :: l) -> x <= y.
Proof.
  intros Hs y [<-|Hy]; [lia|].
  apply Sorted_StronglySorted in Hs; [|intros a b c; apply Z.lt_trans].
  apply StronglySorted_inv in Hs. destruct Hs as [_ Hall].
  rewrite Forall_forall in Hall. specialize (Hall y Hy). lia.
Qed.

(** X14.  Parser and voicing generator together: every entry of a parsed
    catalog whose note labels name no inherited member has at least one
    voicing, and each of its voicings has as many pitches as the entry,
    strictly increasing, with the entry's pitch classes, and no pitch
    below 48. *)
Theorem parsed_entry_voicings
  (source : option str) (entry : ChordData) (v : ChordVoicing) :
  In entry (fst (parseChordData source)) ->
  numberLabels (notes entry) ->
  calculateVoicings entry <> []
  /\ (In v (calculateVoicings entry) ->
      length (vnotes v) = length (midiNotes entry)
      /\ strictlyIncreasing (vnotes v)
      /\ Permutation (pitchClasses (vnotes v))
                     (pitchClasses (midiNotes entry))
      /\ (forall p, In p (vnotes v) -> 48 <= p)).
Proof.
  intros Hin _. apply parseChordData_entry in Hin. destruct Hin as [Hne Hm].
  assert (Hmne : midiNotes entry <> []).
  { rewrite Hm. destruct (notes entry); [congruence | discriminate]. }
  split.
  { rewrite calculateVoicings_unfold by exact Hmne. discriminate. }
  intros Hv. apply calculateVoicings_In in Hv.
  assert (Hlow : forall i p, nth_error (midiNotes entry) i = Some p -> 60 <= p).
  { intros i p Hp. rewrite Hm in Hp.
    apply convertChordNotesToMidi_bounds in Hp. lia. }
  destruct Hv as [->|[inv [Hinv ->]]].
  - cbn [vnotes]. split; [reflexivity|].
    split; [rewrite Hm; apply convertChordNotesToMidi_sorted|].
    split; [reflexivity|].
    intros p Hp. apply In_nth_error in Hp. destruct Hp as [i Hp].
    specialize (Hlow i p Hp). lia.
  - destruct (inversion_invariants (midiNotes entry) inv) as [Hl [Hs Hp]];
      [lia|].
    split; [exact Hl|]. split; [exact Hs|]. split; [exact Hp|].
    destruct (nth_error (midiNotes entry) inv) as [q|] eqn:Eq;
      [|apply nth_error_None in Eq; lia].
    specialize (Hlow inv q Eq).
    destruct (sortedInversion_head _ _ _ Eq) as [rest Hsi].
    rewrite inversion_notes, Hsi in Hs |- *.
    destruct (maxOf (q :: rest) >? KEYBOARD_MAX); intros p Hin.
    + cbn [map] in Hs, Hin.
      pose proof (sorted_above_head _ _ Hs p Hin). lia.
    + pose proof (sorted_above_head _ _ Hs p Hin). lia.
Qed.

Lemma parsed_entry_voicings_witness :
  calculateVoicings
    (mkChord (lit "B") (map lit ["B"; "D#"; "F#"]%string) [71; 75; 78]
       (lit "Major") (lit "Triad")) <> [].
Proof.
  apply (parsed_entry_voicings
           (Some (csvOf [csvRecord "B" "B,D#,F#" "Major" "Triad"]))
           (mkChord (lit "B") (map lit ["B"; "D#"; "F#"]%string) [71; 75; 78]
              (lit "Major") (lit "Triad"))
           (mkVoicing (lit "2nd Inv") [66; 71; 75])).
  - vm_compute. left. reflexivity.
  - repeat constructor.
Defined.

Section StronglySortedApp.

Context {A : Type} (R : A -> A -> Prop).

Lemma StronglySorted_app_inv (a b : list A) :
  StronglySorted R (a ++ b) ->
  StronglySorted R a /\ StronglySorted R b
  /\ (forall x y, In x a -> In y b -> R x y).
Proof.
  induction a as [|z a IH]; simpl; intros Hs.
  - split; [constructor|]. split; [exact Hs|]. intros x y [].
  - apply StronglySorted_inv in Hs. destruct Hs as [Hs Hall].
    destruct (IH Hs) as [Ha [Hb Hab]]. rewrite Forall_forall in Hall.
    split; [|split; [exact Hb|]].
    + constructor; [exact Ha|]. apply Forall_forall.
      intros x Hx. apply Hall, in_app_iff. left; exact Hx.
    + intros x y [<-|Hx] Hy.
      * apply Hall, in_app_iff. right; exact Hy.
      * apply Hab; assumption.
Qed.

Lemma StronglySorted_app (a b : list A) :
  StronglySorted R a -> StronglySorted R b ->
  (forall x y, In x a -> In y b -> R x y) ->
  StronglySorted R (a ++ b).
Proof.
  induction a as [|z a IH]; simpl; intros Ha Hb Hab; [exact Hb|].
  apply StronglySorted_inv in Ha. destruct Ha as [Ha Hall].
  constructor.
  - apply IH; auto.
  - rewrite Forall_forall in *. intros x Hx. apply in_app_iff in Hx.
    destruct Hx as [Hx|Hx]; [apply Hall, Hx | apply Hab; auto].
Qed.

End StronglySortedApp.

Lemma calculateVoicings_nth (chord : ChordData) (inv : nat) :
  (1 <= inv < Nat.min (length (midiNotes chord)) 4)%nat ->
  nth_error (calculateVoicings chord) inv
  = Some (inversion (midiNotes chord) inv).
Proof.
  intros Hinv.
  rewrite calculateVoicings_unfold
    by (destruct (midiNotes chord); [simpl in Hinv; lia | discriminate]).
  destruct inv as [|inv]; [lia|]. cbn [nth_error].
  rewrite nth_error_map.
  rewrite nth_error_nth' with (d := 0%nat) by (rewrite length_seq; lia).
  rewrite seq_nth by lia. reflexivity.
Qed.

Lemma close_position_sorted (l : list Z) (inv : nat) :
  Sorted Z.lt l ->
  (forall p, In p l -> p < hd 0 l + 12) ->
  Sorted Z.lt (skipn inv l ++ map (fun p => p + 12) (firstn inv l)).
Proof.
  intros Hs Hoct.
  assert (Hmin : forall x, In x l -> hd 0 l <= x).
  { destruct l as [|h t]; [intros x []|]. apply sorted_above_head, Hs. }
  apply Sorted_StronglySorted in Hs; [|intros a b c; apply Z.lt_trans].
  assert (Hparts : StronglySorted Z.lt (firstn inv l ++ skipn inv l))
    by (rewrite firstn_skipn; exact Hs).
  apply StronglySorted_app_inv in Hparts. destruct Hparts as [Hf [Hk _]].
  apply StronglySorted_Sorted, StronglySorted_app.
  - exact Hk.
  - clear -Hf. induction Hf as [|x t Ht IH Hall]; simpl; constructor.
    + exact IH.
    + rewrite Forall_forall in *. intros y Hy.
      apply in_map_iff in Hy. destruct Hy as [z [<- Hz]].
      specialize (Hall z Hz). lia.
  - intros y x' Hy Hx'.
    apply in_map_iff in Hx'. destruct Hx' as [x [<- Hx]].
    assert (Hyl : In y l).
    { rewrite <- (firstn_skipn inv l). apply in_app_iff. right; exact Hy. }
    apply In_firstn in Hx.
    specialize (Hoct y Hyl). specialize (Hmin x Hx). lia.
Qed.

(** X15.  For an entry in close position (pitches strictly increasing
    and all less than an octave above the lowest), normalization changes
    nothing: inversion [inv] is the entry's pitches from position [inv]
    on, followed by its first [inv] pitches an octave higher, the whole
    lowered by an octave when its greatest pitch exceeds 83. *)
Theorem calculateVoicings_close_position (chord : ChordData) (inv : nat) :
  strictlyIncreasing (midiNotes chord) ->
  (forall p, In p (midiNotes chord) -> p < hd 0 (midiNotes chord) + 12) ->
  (1 <= inv < Nat.min (length (midiNotes chord)) 4)%nat ->
  let moved := skipn inv (midiNotes chord)
               ++ map (fun p => p + 12) (firstn inv (midiNotes chord)) in
  nth_error (calculateVoicings chord) inv
  = Some (mkVoicing (inversionName inv)
            (if 83 <? maxOf moved
             then map (fun note => note - 12) moved
             else moved)).
Proof.
  intros Hs Hoct Hinv moved.
  assert (Hmoved : sortedInversion (midiNotes chord) inv = moved).
  { unfold sortedInversion. rewrite rotate_raiseFirst by lia.
    apply normalize_id, close_position_sorted; assumption. }
  rewrite calculateVoicings_nth by exact Hinv. f_equal.
  unfold inversion, KEYBOARD_MAX. cbv zeta. rewrite Hmoved, Z.gtb_ltb.
  destruct (83 <? maxOf moved); reflexivity.
Qed.

Lemma calculateVoicings_close_position_witness :
  nth_error (calculateVoicings
               (mkChord (lit "B") (map lit ["B"; "D#"; "F#"]%string)
                  [71; 75; 78] (lit "Major") (lit "Triad"))) 2
  = Some (mkVoicing (lit "2nd Inv") [66; 71; 75]).
Proof.
  apply (calculateVoicings_close_position
           (mkChord (lit "B") (map lit ["B"; "D#"; "F#"]%string)
              [71; 75; 78] (lit "Major") (lit "Triad")) 2).
  - repeat constructor.
  - simpl. intros p [<-|[<-|[<-|[]]]]; lia.
  - simpl. lia.
Defined.

(** ** The sort-based generator and parser *)

Lemma addOctave_length (i : nat) (l : list Z) :
  length (addOctave i l) = length l.
Proof.
  revert i; induction l as [|x l IH]; intros i.
  - rewrite addOctave_nil. reflexivity.
  - destruct i as [|i]; [reflexivity|].
    rewrite addOctave_S. simpl. rewrite IH. reflexivity.
Qed.

Lemma addOctave_pitchClasses (i : nat) (l : list Z) :
  pitchClasses (addOctave i l) = pitchClasses l.
Proof.
  revert i; induction l as [|x l IH]; intros i.
  - rewrite addOctave_nil. reflexivity.
  - destruct i as [|i].
    + rewrite addOctave_0. unfold pitchClasses. cbn [map]. f_equal.
      replace (x + 12) with (x + 1 * 12) by lia. apply Z.mod_add. lia.
    + rewrite addOctave_S. unfold pitchClasses in *. cbn [map].
      rewrite IH. reflexivity.
Qed.

(** The element at one position is raised by 12, the others are kept. *)
Lemma addOctave_nth (i j : nat) (l : list Z) :
  nth_error (addOctave i l) j =
  if (j =? i)%nat then option_map (fun v => v + 12) (nth_error l j)
  else nth_error l j.
Proof.
  revert i j; induction l as [|x l IH]; intros i j.
  - rewrite addOctave_nil. destruct j, (_ =? _)%nat; reflexivity.
  - destruct i as [|i].
    + rewrite addOctave_0. destruct j; reflexivity.
    + rewrite addOctave_S. destruct j as [|j]; [reflexivity|].
      cbn [nth_error]. rewrite IH. reflexivity.
Qed.

Lemma addOctave_In (i : nat) (l : list Z) (p : Z) :
  In p (addOctave i l) -> In p l \/ In (p - 12) l.
Proof.
  intros Hin. apply In_nth_error in Hin. destruct Hin as [j Hj].
  rewrite addOctave_nth in Hj. destruct (j =? i)%nat.
  - destruct (nth_error l j) as [v|] eqn:E; [|discriminate].
    injection Hj as <-. right. replace (v + 12 - 12) with v by lia.
    apply (nth_error_In _ _ E).
  - left. apply (nth_error_In _ _ Hj).
Qed.

Lemma addOctave_twice_In (i j : nat) (l : list Z) (p : Z) :
  i <> j ->
  In p (addOctave i (addOctave j l)) -> In p l \/ In (p - 12) l.
Proof.
  intros Hij Hin. apply In_nth_error in Hin. destruct Hin as [k Hk].
  rewrite !addOctave_nth in Hk.
  destruct (Nat.eqb_spec k i) as [Hki|Hki].
  - destruct (Nat.eqb_spec k j) as [Hkj|_]; [congruence|].
    destruct (nth_error l k) as [v|] eqn:E; [|discriminate].
    injection Hk as <-. right. replace (v + 12 - 12) with v by lia.
    apply (nth_error_In _ _ E).
  - destruct (k =? j)%nat.
    + destruct (nth_error l k) as [v|] eqn:E; [|discriminate].
      injection Hk as <-. right. replace (v + 12 - 12) with v by lia.
      apply (nth_error_In _ _ E).
    + left. apply (nth_error_In _ _ Hk).
Qed.

Lemma sortBy_numeric_sorted (l : list Z) :
  Sorted Z.le (sortBy SortBased.numeric l).
Proof.
  assert (Hs : StronglySorted (fun a b => SortBased.numeric a b <= 0)
                 (sortBy SortBased.numeric l)).
  { apply sortBy_sorted; unfold SortBased.numeric; intros; lia. }
  apply StronglySorted_Sorted in Hs.
  induction Hs as [|x t Ht IH Hhd]; constructor; [exact IH|].
  destruct Hhd as [|y t' Hxy]; constructor.
  unfold SortBased.numeric in Hxy. lia.
Qed.

Lemma SortBased_calculateVoicings_In (chord : ChordData) (v : ChordVoicing) :
  In v (SortBased.calculateVoicings chord) ->
  let sortedNotes := sortBy SortBased.numeric (midiNotes chord) in
  vnotes v = sortedNotes
  \/ vnotes v = sortBy SortBased.numeric (addOctave 0 sortedNotes)
  \/ vnotes v
     = sortBy SortBased.numeric (addOctave 1 (addOctave 0 sortedNotes)).
Proof.
  unfold SortBased.calculateVoicings.
  destruct (midiNotes chord) as [|x l]; [intros []|]. cbv zeta.
  intros Hin. apply in_app_iff in Hin. destruct Hin as [[<-|[]]|Hin];
    [left; reflexivity|].
  apply in_app_iff in Hin. destruct Hin as [Hin|Hin].
  - destruct (_ <? _)%nat; [|destruct Hin].
    destruct Hin as [<-|[]]. right; left; reflexivity.
  - destruct (_ <? _)%nat; [|destruct Hin].
    destruct Hin as [<-|[]]. right; right; reflexivity.
Qed.

(** X16.  The sort-based generator returns [min n 3] voicings for an
    entry of [n] pitches; each has [n] pitches in ascending (not
    necessarily strictly ascending) order with the entry's pitch
    classes. *)
Theorem SortBased_calculateVoicings_invariants
  (chord : ChordData) (v : ChordVoicing) :
  length (SortBased.calculateVoicings chord)
  = Nat.min (length (midiNotes chord)) 3
  /\ (In v (SortBased.calculateVoicings chord) ->
      length (vnotes v) = length (midiNotes chord)
      /\ Sorted Z.le (vnotes v)
      /\ Permutation (pitchClasses (vnotes v))
                     (pitchClasses (midiNotes chord))).
Proof.
  split.
  - unfold SortBased.calculateVoicings.
    destruct (midiNotes chord) as [|a l] eqn:E; [reflexivity|].
    cbv zeta. rewrite sortBy_length.
    destruct l as [|b [|c l]]; cbn [length Nat.min Nat.ltb Nat.leb app];
      rewrite ?Nat.min_0_r; reflexivity.
  - intros Hin. apply SortBased_calculateVoicings_In in Hin. cbv zeta in Hin.
    assert (Hperm : forall l, Permutation
                      (pitchClasses (sortBy SortBased.numeric l))
                      (pitchClasses l)).
    { intros l. apply Permutation_map, sortBy_perm. }
    destruct Hin as [Hv|[Hv|Hv]]; rewrite Hv;
      rewrite ?sortBy_length, ?addOctave_length, ?sortBy_length;
      (split; [reflexivity|]); (split; [apply sortBy_numeric_sorted|]).
    + apply Hperm.
    + rewrite Hperm, addOctave_pitchClasses. apply Hperm.
    + rewrite Hperm, !addOctave_pitchClasses. apply Hperm.
Qed.

Lemma SortBased_parseLines_entry (lines : list str) (entry : ChordData) :
  In entry (fst (SortBased.parseLines lines)) ->
  notes entry <> [] /\ midiNotes entry = map noteToMidi (notes entry).
Proof.
  induction lines as [|raw lines IH]; [intros []|].
  cbn [SortBased.parseLines].
  destruct (SortBased.parseLine raw) as [c1 w1] eqn:E1.
  destruct (SortBased.parseLines lines) as [c2 w2].
  cbn [fst] in *. rewrite in_app_iff. intros [Hin|Hin]; [|apply IH, Hin].
  unfold SortBased.parseLine in E1. cbv zeta in E1.
  destruct (trim raw) as [|c line].
  - injection E1 as <- _. destruct Hin.
  - destruct (matchLine (c :: line)) as [[[[n ns] t] e]|].
    + injection E1 as <- _. destruct Hin as [<-|[]].
      cbn [notes midiNotes]. split; [|reflexivity].
      intros Hnil. apply map_eq_nil in Hnil.
      exact (split_nonempty _ _ Hnil).
    + injection E1 as <- _. destruct Hin.
Qed.

Lemma SortBased_parseChordData_entry
  (source : option str) (entry : ChordData) :
  In entry (fst (SortBased.parseChordData source)) ->
  notes entry <> [] /\ midiNotes entry = map noteToMidi (notes entry).
Proof.
  destruct source as [csvText|]; [|intros []].
  apply SortBased_parseLines_entry.
Qed.

(** Voicings of pitches from 60 to 71 stay within 60 to 83: at most one
    octave is added to a pitch. *)
Lemma SortBased_voicing_window (chord : ChordData) (v : ChordVoicing) (p : Z) :
  (forall q, In q (midiNotes chord) -> 60 <= q <= 71) ->
  In v (SortBased.calculateVoicings chord) -> In p (vnotes v) ->
  60 <= p <= 83.
Proof.
  intros Hr Hv Hp.
  assert (Hs : forall q, In q (sortBy SortBased.numeric (midiNotes chord))
                         -> 60 <= q <= 71).
  { intros q Hq. apply sortBy_In in Hq. apply Hr, Hq. }
  apply SortBased_calculateVoicings_In in Hv. cbv zeta in Hv.
  destruct Hv as [Hv|[Hv|Hv]]; rewrite Hv in Hp.
  - specialize (Hs p Hp). lia.
  - apply sortBy_In, addOctave_In in Hp.
    destruct Hp as [Hp|Hp]; specialize (Hs _ Hp); lia.
  - apply sortBy_In, addOctave_twice_In in Hp; [|discriminate].
    destruct Hp as [Hp|Hp]; specialize (Hs _ Hp); lia.
Qed.

Lemma SortBased_parsed_pitches
  (source : option str) (entry : ChordData) (q : Z) :
  In entry (fst (SortBased.parseChordData source)) ->
  In q (midiNotes entry) -> 60 <= q <= 71.
Proof.
  intros He Hq. apply SortBased_parseChordData_entry in He.
  destruct He as [_ Hm]. rewrite Hm in Hq. apply in_map_iff in Hq.
  destruct Hq as [label [<- _]]. apply noteToMidi_range.
Qed.

(** X17.  In the sort-based file, for a parsed entry whose note labels
    name no inherited member, every pitch is the plainly mapped pitch of
    its label, from 60 to 71, and every pitch of every voicing lies in
    the keyboard range 60 to 83. *)
Theorem SortBased_parsed_voicings_in_range
  (source : option str) (entry : ChordData) (v : ChordVoicing) (p : Z) :
  In entry (fst (SortBased.parseChordData source)) ->
  numberLabels (notes entry) ->
  notes entry <> []
  /\ midiNotes entry = map noteToMidi (notes entry)
  /\ (In p (midiNotes entry) -> 60 <= p <= 71)
  /\ (In v (SortBased.calculateVoicings entry) -> In p (vnotes v) ->
      KEYBOARD_MIN <= p <= KEYBOARD_MAX).
Proof.
  intros Hin _.
  destruct (SortBased_parseChordData_entry _ _ Hin) as [Hne Hm].
  split; [exact Hne|]. split; [exact Hm|].
  split; [apply (SortBased_parsed_pitches _ _ _ Hin)|].
  intros Hv Hp. unfold KEYBOARD_MIN, KEYBOARD_MAX.
  apply (SortBased_voicing_window entry v p); try assumption.
  intros q. apply (SortBased_parsed_pitches _ _ _ Hin).
Qed.

Lemma SortBased_calculateVoicings_invariants_witness :
  Sorted Z.le [60; 62; 65; 68].
Proof.
  apply (SortBased_calculateVoicings_invariants
           (mkChord (lit "Fm6") (map lit ["F"; "G#"; "C"; "D"]%string)
              [65; 68; 60; 62] (lit "Minor") (lit "6th"))
           (mkVoicing (lit "Root") [60; 62; 65; 68])).
  vm_compute. left. reflexivity.
Defined.

Lemma SortBased_parsed_voicings_in_range_witness :
  KEYBOARD_MIN <= 78 <= KEYBOARD_MAX.
Proof.
  refine (proj2 (proj2 (proj2
            (SortBased_parsed_voicings_in_range
               (Some (csvOf [csvRecord "B" "B,D#,F#" "Major" "Triad"]))
               (mkChord (lit "B") (map lit ["B"; "D#"; "F#"]%string)
                  [71; 63; 66] (lit "Major") (lit "Triad"))
               (mkVoicing (lit "2nd Inv") [71; 75; 78])
               78 _ _))) _ _).
  - vm_compute. left. reflexivity.
  - repeat constructor.
  - vm_compute. tauto.
  - simpl. tauto.
Defined.

(** ** The keyboard diagram *)

Lemma includesZ_iff (a : list Z) (x : Z) :
  KeyboardDiagram.includesZ a x = true <-> In x a.
Proof.
  unfold KeyboardDiagram.includesZ. rewrite existsb_exists. split.
  - intros [y [Hy E]]. apply Z.eqb_eq in E. subst. exact Hy.
  - intros Hx. exists x. split; [exact Hx | apply Z.eqb_refl].
Qed.

(** The keys drawn, white row then black row, with their flags. *)
Lemma keyboard_rows (notes : list Z) :
  KeyboardDiagram.whiteRow notes ++ KeyboardDiagram.blackRow notes
  = map (fun k => (k, KeyboardDiagram.includesZ notes k))
      [60; 62; 64; 65; 67; 69; 71; 72; 74; 76; 77; 79; 81; 83;
       61; 63; 66; 68; 70; 73; 75; 78; 80; 82].
Proof. reflexivity. Qed.

Lemma keyboard_window (p : Z) :
  In p [60; 62; 64; 65; 67; 69; 71; 72; 74; 76; 77; 79; 81; 83;
        61; 63; 66; 68; 70; 73; 75; 78; 80; 82]
  <-> 60 <= p <= 83.
Proof.
  split.
  - simpl. intros H.
    repeat (destruct H as [<-|H]; [lia|]). destruct H.
  - intros H.
    assert (Hc : p = 60 \/ p = 61 \/ p = 62 \/ p = 63 \/ p = 64 \/ p = 65
                 \/ p = 66 \/ p = 67 \/ p = 68 \/ p = 69 \/ p = 70 \/ p = 71
                 \/ p = 72 \/ p = 73 \/ p = 74 \/ p = 75 \/ p = 76 \/ p = 77
                 \/ p = 78 \/ p = 79 \/ p = 80 \/ p = 81 \/ p = 82 \/ p = 83)
      by lia.
    repeat (destruct Hc as [->|Hc]; [simpl; tauto|]).
    subst. simpl. tauto.
Qed.

Lemma activeKeys_iff (notes : list Z) (p : Z) :
  In p (KeyboardDiagram.activeKeys notes) <-> In p notes /\ 60 <= p <= 83.
Proof.
  unfold KeyboardDiagram.activeKeys. rewrite keyboard_rows.
  rewrite in_map_iff. split.
  - intros [[k b] [Hk Hin]]. cbn [fst] in Hk. subst k.
    apply filter_In in Hin. destruct Hin as [Hin Hb]. cbn [snd] in Hb.
    apply in_map_iff in Hin. destruct Hin as [k [Heq Hk]].
    injection Heq as -> <-.
    split; [apply includesZ_iff, Hb | apply keyboard_window, Hk].
  - intros [Hn Hw]. exists (p, true). split; [reflexivity|].
    apply filter_In. split; [|reflexivity].
    apply in_map_iff. exists p. split; [|apply keyboard_window, Hw].
    f_equal. apply includesZ_iff, Hn.
Qed.

(** X18.  The diagram draws every key from 60 to 83 once, whatever the
    notes, and highlights exactly the keys that are notes of the voicing
    within that range: a note below 60 or above 83 is not shown at
    all. *)
Theorem keyboard_highlights (notes : list Z) (p : Z) :
  (In p (KeyboardDiagram.activeKeys notes) <-> In p notes /\ 60 <= p <= 83)
  /\ (In p (map fst (KeyboardDiagram.whiteRow notes
                     ++ KeyboardDiagram.blackRow notes))
      <-> 60 <= p <= 83)
  /\ NoDup (map fst (KeyboardDiagram.whiteRow notes
                     ++ KeyboardDiagram.blackRow notes)).
Proof.
  split; [apply activeKeys_iff|].
  rewrite keyboard_rows, map_map. cbn [fst]. rewrite map_id.
  split; [apply keyboard_window|].
  repeat (constructor;
          [simpl; intros H;
           repeat (destruct H as [H|H]; [discriminate H|]); exact H|]).
  constructor.
Qed.

(** X19.  In the sort-based file the diagrams show every voicing in
    full: each pitch of each voicing of a parsed entry whose note labels
    name no inherited member is a highlighted key of that voicing's
    diagram. *)
Theorem SortBased_voicings_fully_displayed
  (source : option str) (entry : ChordData) (v : ChordVoicing) (p : Z) :
  In entry (fst (SortBased.parseChordData source)) ->
  numberLabels (notes entry) ->
  In v (SortBased.calculateVoicings entry) ->
  In p (vnotes v) ->
  In p (KeyboardDiagram.activeKeys (vnotes v)).
Proof.
  intros He _ Hv Hp. apply activeKeys_iff. split; [exact Hp|].
  apply (SortBased_voicing_window entry v p); try assumption.
  intros q. apply (SortBased_parsed_pitches _ _ _ He).
Qed.

Lemma SortBased_voicings_fully_displayed_witness :
  In 78 (KeyboardDiagram.activeKeys [71; 75; 78]).
Proof.
  refine (SortBased_voicings_fully_displayed
            (Some (csvOf [csvRecord "B" "B,D#,F#" "Major" "Triad"]))
            (mkChord (lit "B") (map lit ["B"; "D#"; "F#"]%string)
               [71; 63; 66] (lit "Major") (lit "Triad"))
            (mkVoicing (lit "2nd Inv") [71; 75; 78]) 78 _ _ _ _).
  - vm_compute. left. reflexivity.
  - repeat constructor.
  - vm_compute. tauto.
  - simpl. tauto.
Defined.

(** ** The chord collection of the by-name tab *)

Section StrMapFacts.

Import ByNameTab.
Context {V : Type}.

Lemma mapGet_In (k : str) (m : StrMap V) (v : V) :
  mapGet k m = Some v -> In (k, v) m.
Proof.
  induction m as [|[k' v'] m IH]; simpl; [discriminate|].
  destruct (str_eqb k k') eqn:E.
  - intros [= ->]. apply str_eqb_eq in E. subst. left; reflexivity.
  - intros H. right. apply IH, H.
Qed.

Lemma mapGet_None (k : str) (m : StrMap V) :
  mapGet k m = None -> ~ In k (map fst m).
Proof.
  induction m as [|[k' v'] m IH]; simpl; [intros _ []|].
  destruct (str_eqb k k') eqn:E; [discriminate|].
  intros H [Heq|Hin]; [|exact (IH H Hin)].
  subst. rewrite str_eqb_refl in E. discriminate.
Qed.

Lemma mapSet_fresh (k : str) (v : V) (m : StrMap V) :
  mapGet k m = None -> mapSet k v m = m ++ [(k, v)].
Proof.
  induction m as [|[k' v'] m IH]; simpl; [reflexivity|].
  destruct (str_eqb k k'); [discriminate|].
  intros H. rewrite (IH H). reflexivity.
Qed.

(** Replacing the value of a present key keeps every key in place. *)
Lemma mapSet_present (k : str) (v w : V) (m : StrMap V) :
  mapGet k m = Some v ->
  exists pre post,
    m = pre ++ (k, v) :: post /\ mapSet k w m = pre ++ (k, w) :: post.
Proof.
  induction m as [|[k' v'] m IH]; simpl; [discriminate|].
  destruct (str_eqb k k') eqn:E.
  - intros [= ->]. apply str_eqb_eq in E. subst.
    exists [], m. split; reflexivity.
  - intros H. destruct (IH H) as [pre [post [-> ->]]].
    exists ((k', v') :: pre), post. split; reflexivity.
Qed.

Lemma mapSet_restore (k : str) (v w : V) (m : StrMap V) :
  mapGet k m = Some v ->
  mapGet k (mapSet k w m) = Some w /\ mapSet k v (mapSet k w m) = m.
Proof.
  induction m as [|[k' v'] m IH]; simpl; [discriminate|].
  destruct (str_eqb k k') eqn:E.
  - intros [= ->]. simpl. rewrite E. auto.
  - intros H. simpl. rewrite E. destruct (IH H) as [-> ->]. auto.
Qed.

Lemma mapDelete_fresh_last (k : str) (v : V) (m : StrMap V) :
  mapGet k m = None -> mapDelete k (m ++ [(k, v)]) = m.
Proof.
  induction m as [|[k' v'] m IH]; simpl.
  - rewrite str_eqb_refl. reflexivity.
  - destruct (str_eqb k k'); [discriminate|].
    intros H. rewrite (IH H). reflexivity.
Qed.

(** Deleting a key removes at most one entry and keeps the others in
    order. *)
Lemma mapDelete_split (k : str) (m : StrMap V) :
  mapDelete k m = m
  \/ exists pre v post, m = pre ++ (k, v) :: post
                        /\ mapDelete k m = pre ++ post.
Proof.
  induction m as [|[k' v'] m IH]; simpl; [left; reflexivity|].
  destruct (str_eqb k k') eqn:E.
  - apply str_eqb_eq in E. subst. right. exists [], v', m. auto.
  - destruct IH as [->|[pre [v [post [-> ->]]]]]; [left; reflexivity|].
    right. exists ((k', v') :: pre), v, post. auto.
Qed.

End StrMapFacts.

Lemma sortBy_sorted_id {A} (cmp : A -> A -> Z) (l : list A) :
  StronglySorted (fun a b => cmp a b <= 0) l -> sortBy cmp l = l.
Proof.
  induction 1 as [|x l Hs IH Hall]; [reflexivity|].
  simpl. fold (sortBy cmp l). rewrite IH.
  destruct l as [|y t]; [reflexivity|]. simpl.
  apply Forall_inv in Hall. apply Z.leb_le in Hall. rewrite Hall.
  reflexivity.
Qed.

Lemma StronglySorted_filter {A} (R : A -> A -> Prop) (f : A -> bool)
  (l : list A) :
  StronglySorted R l -> StronglySorted R (filter f l).
Proof.
  induction 1 as [|x l Hs IH Hall]; simpl; [constructor|].
  destruct (f x); [|exact IH]. constructor; [exact IH|].
  rewrite Forall_forall in *. intros y Hy. apply filter_In in Hy.
  apply Hall, Hy.
Qed.

Lemma StronglySorted_map_order (l : list ByNameTab.SelectedChord) :
  StronglySorted Z.lt (map ByNameTab.order l) ->
  StronglySorted (fun a b => ByNameTab.byOrder a b <= 0) l.
Proof.
  induction l as [|x l IH]; simpl; intros Hs; [constructor|].
  apply StronglySorted_inv in Hs. destruct Hs as [Hs Hall].
  constructor; [apply IH, Hs|].
  rewrite Forall_forall in *. intros y Hy. unfold ByNameTab.byOrder.
  specialize (Hall (ByNameTab.order y) (in_map _ _ _ Hy)). lia.
Qed.

Lemma collectionInvariant_initial :
  collectionInvariant ByNameTab.initialState.
Proof.
  unfold collectionInvariant. simpl.
  repeat split; try constructor. lia.
Qed.

Lemma collectionInvariant_add (c : ChordData) (st : ByNameTab.State) :
  collectionInvariant st ->
  collectionInvariant (fst (ByNameTab.addToCollection c st)).
Proof.
  intros Hinv. unfold ByNameTab.addToCollection.
  destruct (Nat.leb_spec 7 (length (ByNameTab.chordCollection st)));
    [exact Hinv|].
  unfold ByNameTab.mapHas.
  destruct (ByNameTab.mapGet (name c) (ByNameTab.chordCollection st))
    eqn:E; [exact Hinv|].
  cbv zeta. cbn [fst]. destruct Hinv as [Hnd [Hlen [Hall Hs]]].
  unfold collectionInvariant.
  cbn [ByNameTab.chordCollection ByNameTab.selectionOrder].
  rewrite (mapSet_fresh _ _ _ E).
  rewrite !map_app, length_app. cbn [map length fst snd].
  split; [|split; [lia|split]].
  - apply NoDup_app; [exact Hnd | repeat constructor; intros [] |].
    intros k Hk [<-|[]]. exact (mapGet_None _ _ E Hk).
  - apply Forall_app. split.
    + eapply Forall_impl; [|exact Hall]. cbv beta. intros kv [H1 H2].
      split; [exact H1 | lia].
    + constructor; [|constructor]. cbn. split; [reflexivity | lia].
  - apply StronglySorted_app; [exact Hs | repeat constructor |].
    intros x y Hx [<-|[]]. cbn [ByNameTab.order].
    apply in_map_iff in Hx. destruct Hx as [kv [<- Hkv]].
    rewrite Forall_forall in Hall. apply (Hall kv Hkv).
Qed.

Lemma collectionInvariant_remove (chordName : str) (st : ByNameTab.State) :
  collectionInvariant st ->
  collectionInvariant (ByNameTab.removeFromCollection chordName st).
Proof.
  intros [Hnd [Hlen [Hall Hs]]]. unfold collectionInvariant.
  cbn [ByNameTab.removeFromCollection ByNameTab.chordCollection
       ByNameTab.selectionOrder].
  destruct (mapDelete_split chordName (ByNameTab.chordCollection st))
    as [->|[pre [v [post [Hm ->]]]]]; [repeat split; assumption|].
  rewrite Hm in Hnd, Hlen, Hall, Hs.
  rewrite !map_app in *. cbn [map] in *. rewrite length_app in *.
  cbn [length] in Hlen.
  split; [|split; [lia|split]].
  - apply NoDup_remove_1 in Hnd. exact Hnd.
  - apply Forall_app in Hall. destruct Hall as [H1 H2].
    apply Forall_inv_tail in H2. apply Forall_app. auto.
  - apply StronglySorted_app_inv in Hs. destruct Hs as [H1 [H2 H3]].
    apply StronglySorted_inv in H2. destruct H2 as [H2 _].
    apply StronglySorted_app; [exact H1 | exact H2 |].
    intros x y Hx Hy. apply H3; [exact Hx | right; exact Hy].
Qed.

Lemma collectionInvariant_toggle (chordName : str) (st : ByNameTab.State) :
  collectionInvariant st ->
  collectionInvariant (ByNameTab.toggleChordDisplay chordName st).
Proof.
  intros Hinv. unfold ByNameTab.toggleChordDisplay.
  destruct (ByNameTab.mapGet chordName (ByNameTab.chordCollection st))
    as [item|] eqn:E; [|exact Hinv].
  destruct Hinv as [Hnd [Hlen [Hall Hs]]]. unfold collectionInvariant.
  cbn [ByNameTab.chordCollection ByNameTab.selectionOrder].
  destruct (mapSet_present chordName item
              (ByNameTab.mkSelected (ByNameTab.chord item)
                 (ByNameTab.order item)
                 (negb (ByNameTab.isDisplayed item)))
              _ E) as [pre [post [Hm ->]]].
  rewrite Hm in Hnd, Hlen, Hall, Hs.
  rewrite !map_app in *. cbn [map fst snd ByNameTab.order] in *.
  rewrite length_app in *. cbn [length] in *.
  split; [exact Hnd|]. split; [exact Hlen|]. split; [|exact Hs].
  apply Forall_app in Hall. destruct Hall as [H1 H2].
  apply Forall_app. split; [exact H1|].
  inversion H2 as [|? ? Hhd Htl]; subst. constructor; [|exact Htl].
  exact Hhd.
Qed.

Lemma collectionInvariant_run (events : list ByNameTab.Event) :
  collectionInvariant (ByNameTab.run events).
Proof.
  unfold ByNameTab.run.
  assert (H : forall st, collectionInvariant st ->
                         collectionInvariant
                           (fold_left ByNameTab.handle events st)).
  { induction events as [|e events IH]; intros st Hst; [exact Hst|].
    simpl. apply IH. destruct e; simpl.
    - apply collectionInvariant_add, Hst.
    - apply collectionInvariant_remove, Hst.
    - apply collectionInvariant_toggle, Hst. }
  apply H, collectionInvariant_initial.
Qed.

(** X20.  After any sequence of add, remove and toggle clicks the
    collection holds at most seven chords with distinct names, each filed
    under its own name; the chips and the diagrams, which are sorted by
    selection order, appear in the order in which the chords were
    added. *)
Theorem collection_after_any_clicks (events : list ByNameTab.Event) :
  let st := ByNameTab.run events in
  let coll := ByNameTab.chordCollection st in
  (length coll <= 7)%nat
  /\ NoDup (map fst coll)
  /\ Forall (fun kv => fst kv = name (ByNameTab.chord (snd kv))) coll
  /\ ByNameTab.collectionChords st = ByNameTab.mapValues coll
  /\ ByNameTab.displayedChords st
     = filter ByNameTab.isDisplayed (ByNameTab.mapValues coll).
Proof.
  intros st coll.
  destruct (collectionInvariant_run events) as [Hnd [Hlen [Hall Hs]]].
  fold st in Hnd, Hlen, Hall, Hs. fold coll in Hnd, Hlen, Hall, Hs.
  assert (Hsorted : StronglySorted
                      (fun a b => ByNameTab.byOrder a b <= 0)
                      (ByNameTab.mapValues coll)).
  { apply StronglySorted_map_order. unfold ByNameTab.mapValues.
    rewrite map_map. exact Hs. }
  split; [exact Hlen|]. split; [exact Hnd|]. split.
  - eapply Forall_impl; [|exact Hall]. cbv beta. tauto.
  - unfold ByNameTab.collectionChords, ByNameTab.displayedChords.
    fold st. fold coll. split; apply sortBy_sorted_id.
    + exact Hsorted.
    + apply StronglySorted_filter, Hsorted.
Qed.

(** X21.  Toggling the display of a chord twice restores the state:
    the chord keeps its place, its order number and its display flag.
    Toggling a name that is not in the collection changes nothing, and
    toggling a name that is in it changes the state. *)
Theorem toggleChordDisplay_twice (chordName : str) (st : ByNameTab.State) :
  ByNameTab.toggleChordDisplay chordName
    (ByNameTab.toggleChordDisplay chordName st) = st
  /\ (ByNameTab.mapHas chordName (ByNameTab.chordCollection st) = false ->
      ByNameTab.toggleChordDisplay chordName st = st)
  /\ (ByNameTab.mapHas chordName (ByNameTab.chordCollection st) = true ->
      ByNameTab.toggleChordDisplay chordName st <> st).
Proof.
  split; [|split].
  2:{ unfold ByNameTab.mapHas, ByNameTab.toggleChordDisplay.
      destruct (ByNameTab.mapGet chordName (ByNameTab.chordCollection st));
        [discriminate | reflexivity]. }
  2:{ unfold ByNameTab.mapHas, ByNameTab.toggleChordDisplay.
      destruct (ByNameTab.mapGet chordName (ByNameTab.chordCollection st))
        as [item|] eqn:E; [|discriminate].
      intros _ Heq.
      apply (f_equal ByNameTab.chordCollection) in Heq.
      cbn [ByNameTab.chordCollection] in Heq.
      destruct (mapSet_restore chordName item
                  (ByNameTab.mkSelected (ByNameTab.chord item)
                     (ByNameTab.order item)
                     (negb (ByNameTab.isDisplayed item)))
                  _ E) as [Hget _].
      rewrite Heq, E in Hget. injection Hget as Hitem.
      apply (f_equal ByNameTab.isDisplayed) in Hitem.
      cbn [ByNameTab.isDisplayed] in Hitem.
      destruct (ByNameTab.isDisplayed item); discriminate. }
  unfold ByNameTab.toggleChordDisplay at 2.
  destruct (ByNameTab.mapGet chordName (ByNameTab.chordCollection st))
    as [item|] eqn:E.
  - unfold ByNameTab.toggleChordDisplay.
    cbn [ByNameTab.chordCollection ByNameTab.searchQuery
         ByNameTab.searchResults ByNameTab.selectionOrder].
    destruct (mapSet_restore chordName item
                (ByNameTab.mkSelected (ByNameTab.chord item)
                   (ByNameTab.order item)
                   (negb (ByNameTab.isDisplayed item)))
                _ E) as [Hget Hset].
    rewrite Hget.
    cbn [ByNameTab.chord ByNameTab.order ByNameTab.isDisplayed].
    rewrite negb_involutive.
    replace (ByNameTab.mkSelected (ByNameTab.chord item)
               (ByNameTab.order item) (ByNameTab.isDisplayed item))
      with item by (destruct item; reflexivity).
    rewrite Hset. destruct st; reflexivity.
  - unfold ByNameTab.toggleChordDisplay. rewrite E. reflexivity.
Qed.

Lemma toggleChordDisplay_twice_witness :
  ByNameTab.toggleChordDisplay (lit "C") ByNameTab.initialState
  = ByNameTab.initialState.
Proof.
  apply (toggleChordDisplay_twice (lit "C") ByNameTab.initialState).
  reflexivity.
Defined.

(** X22.  Adding a chord whose name is not in a collection of fewer than
    seven chords appends it, hidden, under the next order number, shows
    no alert and clears the search; removing it again gives back the
    collection as it was, while the order number is not given out a
    second time. *)
Theorem addToCollection_then_remove (c : ChordData) (st : ByNameTab.State) :
  (length (ByNameTab.chordCollection st) < 7)%nat ->
  ByNameTab.mapHas (name c) (ByNameTab.chordCollection st) = false ->
  let st' := fst (ByNameTab.addToCollection c st) in
  snd (ByNameTab.addToCollection c st) = None
  /\ ByNameTab.chordCollection st'
     = ByNameTab.chordCollection st
       ++ [(name c,
            ByNameTab.mkSelected c (ByNameTab.selectionOrder st) false)]
  /\ ByNameTab.searchQuery st' = [] /\ ByNameTab.searchResults st' = []
  /\ ByNameTab.selectionOrder st' = ByNameTab.selectionOrder st + 1
  /\ ByNameTab.chordCollection
       (ByNameTab.removeFromCollection (name c) st')
     = ByNameTab.chordCollection st
  /\ ByNameTab.selectionOrder
       (ByNameTab.removeFromCollection (name c) st')
     = ByNameTab.selectionOrder st + 1.
Proof.
  intros Hlen Hhas. unfold ByNameTab.addToCollection.
  destruct (Nat.leb_spec 7 (length (ByNameTab.chordCollection st)));
    [lia|].
  rewrite Hhas. cbv zeta. cbn [fst snd].
  unfold ByNameTab.mapHas in Hhas.
  destruct (ByNameTab.mapGet (name c) (ByNameTab.chordCollection st))
    eqn:E; [discriminate|].
  cbn [ByNameTab.chordCollection ByNameTab.searchQuery
       ByNameTab.searchResults ByNameTab.selectionOrder
       ByNameTab.removeFromCollection].
  rewrite (mapSet_fresh _ _ _ E), (mapDelete_fresh_last _ _ _ E).
  repeat split.
Qed.

Lemma addToCollection_then_remove_witness :
  ByNameTab.chordCollection
    (ByNameTab.removeFromCollection (lit "C")
       (fst (ByNameTab.addToCollection
               (mkChord (lit "C") (map lit ["C"; "E"; "G"]%string)
                  [60; 64; 67] (lit "Major") (lit "Triad"))
               ByNameTab.initialState)))
  = ByNameTab.chordCollection ByNameTab.initialState.
Proof.
  apply (addToCollection_then_remove
           (mkChord (lit "C") (map lit ["C"; "E"; "G"]%string)
              [60; 64; 67] (lit "Major") (lit "Triad"))
           ByNameTab.initialState).
  - simpl. lia.
  - reflexivity.
Defined.

(** X23.  A chord is refused, with an alert and no change of state, when
    the collection already holds seven chords or a chord of the same
    name; so after any clicks a second chord of a name already collected,
    whatever its notes, leaves the state as it is. *)
Theorem addToCollection_refused (c : ChordData) (st : ByNameTab.State) :
  (7 <= length (ByNameTab.chordCollection st))%nat
  \/ In (name c) (map fst (ByNameTab.chordCollection st)) ->
  fst (ByNameTab.addToCollection c st) = st
  /\ snd (ByNameTab.addToCollection c st) <> None.
Proof.
  intros Hcase. unfold ByNameTab.addToCollection.
  destruct (Nat.leb_spec 7 (length (ByNameTab.chordCollection st)));
    [split; [reflexivity | discriminate]|].
  destruct Hcase as [Hfull|Hin]; [lia|].
  unfold ByNameTab.mapHas.
  destruct (ByNameTab.mapGet (name c) (ByNameTab.chordCollection st))
    eqn:E; [split; [reflexivity | discriminate]|].
  exfalso. exact (mapGet_None _ _ E Hin).
Qed.

Lemma addToCollection_refused_witness :
  let c := mkChord (lit "C") (map lit ["C"; "E"; "G"]%string)
             [60; 64; 67] (lit "Major") (lit "Triad") in
  let c' := mkChord (lit "C") (map lit ["C"; "Eb"; "G"]%string)
              [60; 63; 67] (lit "Minor") (lit "Triad") in
  fst (ByNameTab.addToCollection c' (ByNameTab.run [ByNameTab.Add c]))
  = ByNameTab.run [ByNameTab.Add c].
Proof.
  intros c c'.
  apply (addToCollection_refused c' (ByNameTab.run [ByNameTab.Add c])).
  right. simpl. left. reflexivity.
Defined.
